(** * Shallow embedding of the RAG kernel of LightRail AI

    Sources embedded here:
    - [src/src/rag/vector-store.ts]   ([InMemoryVectorStore])
    - [src/src/rag/retrieval.ts]      ([Retriever.retrieve], [buildContext])
    - [src/src/processing/chunking.ts] ([chunkText], [mergeSmallChunks])
    - [src/src/processing/tokenization.ts] ([GPTTokenCounter])
    - the similarity functions of the embeddings module
      ([src/unnamed/part_009]).

    JavaScript strings are modelled as lists of UTF-16 code units; only code
    units 0..255 are representable ([ascii]).  Lengths are list lengths.
    A JS [Map] is an association list kept in insertion order: [set] of an
    existing key replaces the value in place, [set] of a new key appends. *)

From Stdlib Require Import Ascii String.
From Stdlib Require Import List ZArith Lia Bool Sorted Permutation QArith Lqa.
From Stdlib Require Import DecimalString DecimalN.
Import ListNotations.
Open Scope Z_scope.

(** ** JavaScript strings *)
Module JsString.

Definition str := list ascii.

(** String literal helper. *)
Definition lit (x : String.string) : str := String.list_ascii_of_string x.

Definition str_eqb (a b : str) : bool :=
  if list_eq_dec ascii_dec a b then true else false.

(** [String.prototype.length]. *)
Definition js_length (s : str) : Z := Z.of_nat (length s).

(** Whitespace as recognised by [String.prototype.trim] and the regex [\s],
    restricted to code units 0..255: TAB, LF, VT, FF, CR, SPACE, NBSP. *)
Definition is_ws (c : ascii) : bool :=
  let n := nat_of_ascii c in
  ((9 <=? n)%nat && (n <=? 13)%nat) || (n =? 32)%nat || (n =? 160)%nat.

Fixpoint drop_ws (s : str) : str :=
  match s with
  | [] => []
  | c :: s' => if is_ws c then drop_ws s' else s
  end.

(** [String.prototype.trim]. *)
Definition trim (s : str) : str := rev (drop_ws (rev (drop_ws s))).

(** [String.prototype.slice(start, end)] and [Array.prototype.slice] on
    integer arguments. *)
Definition slice_index (len x : Z) : Z :=
  if x <? 0 then Z.max (len + x) 0 else Z.min x len.

Definition slice {A} (s : list A) (start stop : Z) : list A :=
  let len := Z.of_nat (length s) in
  let from := slice_index len start in
  let to := slice_index len stop in
  if from <? to then firstn (Z.to_nat (to - from)) (skipn (Z.to_nat from) s)
  else [].

(** [s.slice(start)]. *)
Definition slice_from (s : str) (start : Z) : str :=
  slice s start (js_length s).

(** [Array.prototype.join(sep)] on strings. *)
Fixpoint join (sep : str) (l : list str) : str :=
  match l with
  | [] => []
  | [x] => x
  | x :: l' => x ++ sep ++ join sep l'
  end.

Fixpoint prefixb (p s : str) : bool :=
  match p, s with
  | [], _ => true
  | a :: p', b :: s' => Ascii.eqb a b && prefixb p' s'
  | _ :: _, [] => false
  end.

(** Scan of [s.split(sep)] for a non-empty [sep]: [skip] code units still
    belong to the separator just matched, [acc] is the current piece,
    reversed.  Matches are found left to right and do not overlap. *)
Fixpoint split_aux (sep : str) (s : str) (skip : nat) (acc : str) : list str :=
  match s with
  | [] => [rev acc]
  | c :: s' =>
      match skip with
      | S k => split_aux sep s' k acc
      | O =>
          if prefixb sep s then rev acc :: split_aux sep s' (pred (length sep)) []
          else split_aux sep s' O (c :: acc)
      end
  end.

(** [String.prototype.split(sep)] with a string separator; the empty
    separator splits into single code units (and [""] into no piece). *)
Definition js_split (s sep : str) : list str :=
  match sep with
  | [] => map (fun c => [c]) s
  | _ => split_aux sep s O []
  end.

(** [String.prototype.lastIndexOf(pat)], [-1] when absent. *)
Fixpoint last_index_aux (pat s : str) (i : Z) (best : Z) : Z :=
  match s with
  | [] => if prefixb pat [] then i else best
  | c :: s' =>
      last_index_aux pat s' (i + 1) (if prefixb pat s then i else best)
  end.

Definition lastIndexOf (s pat : str) : Z := last_index_aux pat s 0 (-1).

End JsString.

Import JsString.

(** ** Vector store ([src/src/rag/vector-store.ts]) *)
Module VectorStore.

Inductive Metric := Cosine | Euclidean.

Record VectorStoreConfig := {
  dimensions : Z;
  similarityMetric : Metric;
  maxDocuments : option Z
}.

(** Metadata values are kept already rendered as text; [None] is
    [undefined]. *)
Definition Metadata := list (str * option str).

Record VectorDocument := {
  id : str;
  content : str;
  embedding : list Q;
  metadata : option Metadata;
  createdAt : Z  (** [Date.getTime()], in milliseconds *)
}.

(** The argument of [add]: [Omit<VectorDocument, 'createdAt'>]. *)
Record NewDocument := {
  nd_id : str;
  nd_content : str;
  nd_embedding : list Q;
  nd_metadata : option Metadata
}.

Inductive StoreError :=
| DimensionsMismatch (expected got : Z)
    (** [Embedding dimensions mismatch] / [Query dimensions mismatch] *)
| SameDimensionsRequired
    (** [Embeddings must have same dimensions], from the similarity functions *)
| ProviderError (status : Z)
    (** a failure of the embedding provider *).

Inductive outcome (A : Type) :=
| Ok : A -> outcome A
| Throw : StoreError -> outcome A.
Arguments Ok {A} _.
Arguments Throw {A} _.

(** [private documents: Map<string, VectorDocument>]. *)
Definition store := list (str * VectorDocument).

Definition map_has (k : str) (m : store) : bool :=
  existsb (fun kv => str_eqb k (fst kv)) m.

(** [Map.prototype.set]. *)
Definition map_set (k : str) (v : VectorDocument) (m : store) : store :=
  if map_has k m
  then map (fun kv => if str_eqb k (fst kv) then (fst kv, v) else kv) m
  else m ++ [(k, v)].

(** [Map.prototype.delete]. *)
Definition map_delete (k : str) (m : store) : store :=
  filter (fun kv => negb (str_eqb k (fst kv))) m.

(** [Map.prototype.get]. *)
Fixpoint get (k : str) (m : store) : option VectorDocument :=
  match m with
  | [] => None
  | (k', v) :: m' => if str_eqb k k' then Some v else get k m'
  end.

Definition size (m : store) : nat := length m.

(** [Array.from(this.documents.values())]. *)
Definition values (m : store) : list VectorDocument := map snd m.

(** [arr.sort((a, b) => a.createdAt.getTime() - b.createdAt.getTime())]:
    [Array.prototype.sort] is stable, and a stable sort by a consistent
    comparator has a unique result, computed here by insertion sort. *)
Fixpoint insert_created (x : VectorDocument) (l : list VectorDocument)
  : list VectorDocument :=
  match l with
  | [] => [x]
  | y :: l' =>
      if createdAt x <=? createdAt y then x :: l else y :: insert_created x l'
  end.

Fixpoint sort_created (l : list VectorDocument) : list VectorDocument :=
  match l with
  | [] => []
  | x :: l' => insert_created x (sort_created l')
  end.

(** [this.config.maxDocuments && this.documents.size >= this.config.maxDocuments]
    ([0] is falsy). *)
Definition at_capacity (cfg : VectorStoreConfig) (m : store) : bool :=
  match maxDocuments cfg with
  | Some n => negb (n =? 0) && (n <=? Z.of_nat (size m))
  | None => false
  end.

(** [{ ...doc, createdAt: new Date() }]. *)
Definition stamp (doc : NewDocument) (now : Z) : VectorDocument :=
  {| id := nd_id doc; content := nd_content doc;
     embedding := nd_embedding doc; metadata := nd_metadata doc;
     createdAt := now |}.

(** [InMemoryVectorStore.add]; [now] is the value of [new Date()]. *)
Definition add (cfg : VectorStoreConfig) (now : Z) (doc : NewDocument) (m : store)
  : outcome store :=
  if negb (Z.of_nat (length (nd_embedding doc)) =? dimensions cfg)
  then Throw (DimensionsMismatch (dimensions cfg) (Z.of_nat (length (nd_embedding doc))))
  else
    let m1 :=
      if at_capacity cfg m then
        match sort_created (values m) with
        | oldest :: _ => map_delete (id oldest) m
        | [] => m
        end
      else m in
    Ok (map_set (nd_id doc) (stamp doc now) m1).

(** A sequence of awaited [add] calls (as [addBatch] issues them); each call
    is paired with the clock reading it takes. *)
Fixpoint add_sequence (cfg : VectorStoreConfig) (calls : list (Z * NewDocument))
    (m : store) : outcome store :=
  match calls with
  | [] => Ok m
  | (now, doc) :: rest =>
      match add cfg now doc m with
      | Ok m' => add_sequence cfg rest m'
      | Throw e => Throw e
      end
  end.

(** [InMemoryVectorStore.export]. *)
Definition export (m : store) : list VectorDocument := values m.

(** [InMemoryVectorStore.import]. *)
Definition import (docs : list VectorDocument) (m : store) : store :=
  fold_left (fun acc d => map_set (id d) d acc) docs m.

(** Shape of every [documents] map the class builds: keys are distinct and
    each entry is stored under its own id. *)
Definition well_formed (m : store) : Prop :=
  NoDup (map fst m) /\ Forall (fun kv => fst kv = id (snd kv)) m.

(** The [n] last elements of a list. *)
Definition lastn {A} (n : nat) (l : list A) : list A := skipn (length l - n) l.

End VectorStore.

(** ** Similarity functions and search *)
Module Search.
Import VectorStore.

Section WithSqrt.

(** [Math.sqrt]; arithmetic is done exactly on [Q] instead of on doubles
    (no rounding, and no overflow to [Infinity] or [NaN]). *)
Variable js_sqrt : Q -> Q.

Fixpoint dot (a b : list Q) : Q :=
  match a, b with
  | x :: a', y :: b' => x * y + dot a' b'
  | _, _ => 0
  end%Q.

Fixpoint sq_dist (a b : list Q) : Q :=
  match a, b with
  | x :: a', y :: b' => (x - y) * (x - y) + sq_dist a' b'
  | _, _ => 0
  end%Q.

(** [cosineSimilarity] of the embeddings module. *)
Definition cosineSimilarity (a b : list Q) : outcome Q :=
  if negb (length a =? length b)%nat then Throw SameDimensionsRequired
  else
    let magnitudeA := js_sqrt (dot a a) in
    let magnitudeB := js_sqrt (dot b b) in
    if Qeq_bool magnitudeA 0 || Qeq_bool magnitudeB 0 then Ok 0%Q
    else Ok (dot a b / (magnitudeA * magnitudeB))%Q.

(** [euclideanDistance] of the embeddings module. *)
Definition euclideanDistance (a b : list Q) : outcome Q :=
  if negb (length a =? length b)%nat then Throw SameDimensionsRequired
  else Ok (js_sqrt (sq_dist a b)).

Record SearchResult := {
  document : VectorDocument;
  score : Q;
  distance : option Q
}.

(** The body of the scan loop of [search] for one document. *)
Definition score_doc (cfg : VectorStoreConfig) (q : list Q) (d : VectorDocument)
  : outcome SearchResult :=
  match similarityMetric cfg with
  | Cosine =>
      match cosineSimilarity q (embedding d) with
      | Ok sc => Ok {| document := d; score := sc; distance := None |}
      | Throw e => Throw e
      end
  | Euclidean =>
      match euclideanDistance q (embedding d) with
      | Ok dist => Ok {| document := d; score := 1 / (1 + dist); distance := Some dist |}
      | Throw e => Throw e
      end
  end.

(** [filter && !filter(doc)]: skipped documents. *)
Definition passes (filter : option (VectorDocument -> bool)) (d : VectorDocument) : bool :=
  match filter with
  | Some f => f d
  | None => true
  end.

(** [for (const doc of this.documents.values()) { ... results.push(...) }] *)
Fixpoint score_all (cfg : VectorStoreConfig) (q : list Q)
    (filter : option (VectorDocument -> bool)) (docs : list VectorDocument)
  : outcome (list SearchResult) :=
  match docs with
  | [] => Ok []
  | d :: docs' =>
      if negb (passes filter d) then score_all cfg q filter docs'
      else
        match score_doc cfg q d with
        | Throw e => Throw e
        | Ok r =>
            match score_all cfg q filter docs' with
            | Ok rs => Ok (r :: rs)
            | Throw e => Throw e
            end
        end
  end.

(** [results.sort((a, b) => b.score - a.score)], stable, by insertion. *)
Fixpoint insert_score (x : SearchResult) (l : list SearchResult) : list SearchResult :=
  match l with
  | [] => [x]
  | y :: l' => if Qle_bool (score y) (score x) then x :: l else y :: insert_score x l'
  end.

Fixpoint sort_score (l : list SearchResult) : list SearchResult :=
  match l with
  | [] => []
  | x :: l' => insert_score x (sort_score l')
  end.

(** [InMemoryVectorStore.search]. *)
Definition search (cfg : VectorStoreConfig) (q : list Q) (topK : Z)
    (filter : option (VectorDocument -> bool)) (m : store)
  : outcome (list SearchResult) :=
  if negb (Z.of_nat (length q) =? dimensions cfg)
  then Throw (DimensionsMismatch (dimensions cfg) (Z.of_nat (length q)))
  else
    match score_all cfg q filter (values m) with
    | Throw e => Throw e
    | Ok results => Ok (slice (sort_score results) 0 topK)
    end.

End WithSqrt.

End Search.

(** ** Retrieval ([src/src/rag/retrieval.ts]) *)
Module Retrieval.
Import VectorStore Search.

Record RetrievalConfig := {
  topK : Z;
  minScore : Q;
  maxContextLength : Z;
  includeMetadata : bool
}.

Record RetrievalResult := {
  query : str;
  documents : list SearchResult;
  context : str;
  tokenEstimate : Z
}.

Definition meta_entry (kv : str * option str) : list str :=
  match snd kv with
  | Some v => [fst kv ++ lit ": " ++ v]
  | None => []
  end.

(** [Retriever.formatDocument]. *)
Definition formatDocument (r : SearchResult) (cfg : RetrievalConfig) : str :=
  let meta :=
    match includeMetadata cfg, metadata (document r) with
    | true, Some md =>
        let metaStr := join (lit ", ") (flat_map meta_entry md) in
        match metaStr with
        | [] => []
        | _ => [lit "[" ++ metaStr ++ lit "]"]
        end
    | _, _ => []
    end in
  join (lit (String (ascii_of_nat 10) EmptyString)) (meta ++ [content (document r)]).

Fixpoint build_parts (results : list SearchResult) (cfg : RetrievalConfig)
    (currentLength : Z) : list str :=
  match results with
  | [] => []
  | r :: rs =>
      let docContent := formatDocument r cfg in
      if maxContextLength cfg <? currentLength + js_length docContent then []
      else docContent :: build_parts rs cfg (currentLength + js_length docContent)
  end.

Definition context_separator : str :=
  let nl := String (ascii_of_nat 10) EmptyString in
  lit (nl ++ nl ++ "---" ++ nl ++ nl).

(** [Retriever.buildContext]. *)
Definition buildContext (results : list SearchResult) (cfg : RetrievalConfig) : str :=
  join context_separator (build_parts results cfg 0).

(** [Retriever.retrieve], with [config] the merge of the retriever's
    configuration and the call's options; [embed] is the embedding
    provider, [js_sqrt] the [Math.sqrt] of the similarity functions. *)
Definition retrieve (js_sqrt : Q -> Q) (embed : str -> outcome (list Q))
    (vcfg : VectorStoreConfig) (m : store) (q : str) (config : RetrievalConfig)
  : outcome RetrievalResult :=
  match embed q with
  | Throw e => Throw e
  | Ok queryEmbedding =>
      match search js_sqrt vcfg queryEmbedding (topK config) (Some (fun _ => true)) m with
      | Throw e => Throw e
      | Ok results =>
          let filtered := filter (fun r => Qle_bool (minScore config) (score r)) results in
          let ctx := buildContext filtered config in
          Ok {| query := q; documents := filtered; context := ctx;
                tokenEstimate := (js_length ctx + 3) / 4 |}
      end
  end.

End Retrieval.

(** ** Chunking ([src/src/processing/chunking.ts]) *)
Module Chunking.

Record ChunkConfig := {
  maxChunkSize : Z;
  chunkOverlap : Z;
  separators : list str;
  preserveStructure : bool
}.

Record TextChunk := {
  content : str;
  index : Z;
  startOffset : Z;
  endOffset : Z;
  metadata : option (list (str * str))
}.

Definition newline : str := [ascii_of_nat 10].

Definition defaultConfig : ChunkConfig :=
  {| maxChunkSize := 1000; chunkOverlap := 200;
     separators := [newline ++ newline; newline; lit ". "; lit ", "; lit " "];
     preserveStructure := true |}.

(** The hard split of [splitRecursively]:
    [for (let i = 0; i < text.length; i += cfg.maxChunkSize - cfg.chunkOverlap)
       result.push(text.slice(i, i + cfg.maxChunkSize));]
    run for at most [fuel] iterations; [None] means the loop has not exited
    by then. *)
Fixpoint hard_split_loop (cfg : ChunkConfig) (text : str) (fuel : nat) (i : Z)
  : option (list str) :=
  match fuel with
  | O => None
  | S f =>
      if i <? js_length text then
        match hard_split_loop cfg text f (i + (maxChunkSize cfg - chunkOverlap cfg)) with
        | Some r => Some (slice text i (i + maxChunkSize cfg) :: r)
        | None => None
        end
      else Some []
  end.

(** With [maxChunkSize >= 0], a stride of at least one exits the loop
    within [length text + 1] iterations
    ([ChunkingFacts.hard_split_loop_exits]); a stride [<= 0] never exits it
    on a non-empty text ([ChunkingFacts.hard_split_loop_diverges]). *)
Definition hard_split (cfg : ChunkConfig) (text : str) : option (list str) :=
  hard_split_loop cfg text (S (length text)) 0.

(** The [for (const part of parts)] loop of [splitRecursively], with the
    recursive call on the finer separators passed as [rec]. *)
Fixpoint split_parts (cfg : ChunkConfig) (rec : str -> option (list str)) (sep : str)
    (parts : list str) (result : list str) (current : str) : option (list str) :=
  match parts with
  | [] => Some (match current with [] => result | _ => result ++ [current] end)
  | part :: ps =>
      let potentialChunk := match current with [] => part | _ => current ++ sep ++ part end in
      if js_length potentialChunk <=? maxChunkSize cfg
      then split_parts cfg rec sep ps result potentialChunk
      else
        let result' := match current with [] => result | _ => result ++ [current] end in
        if maxChunkSize cfg <? js_length part then
          match rec part with
          | Some subChunks => split_parts cfg rec sep ps (result' ++ subChunks) []
          | None => None
          end
        else split_parts cfg rec sep ps result' part
  end.

(** [splitRecursively] (a closure of [chunkText] over [cfg]). *)
Fixpoint splitRecursively (cfg : ChunkConfig) (text : str) (seps : list str) {struct seps}
  : option (list str) :=
  if js_length text <=? maxChunkSize cfg then Some [text]
  else
    match seps with
    | [] => hard_split cfg text
    | sep :: rest =>
        split_parts cfg (fun part => splitRecursively cfg part rest) sep
          (js_split text sep) [] []
    end.

(** The overlap loop of [chunkText]; [prev] is [rawChunks[i - 1]]. *)
Fixpoint build_chunks (cfg : ChunkConfig) (prev : option str) (raws : list str)
    (i currentOffset : Z) : list TextChunk :=
  match raws with
  | [] => []
  | raw :: rs =>
      let c :=
        match prev with
        | Some prevChunk =>
            if 0 <? chunkOverlap cfg
            then slice_from prevChunk (- chunkOverlap cfg) ++ raw
            else raw
        | None => raw
        end in
      {| content := trim c; index := i; startOffset := currentOffset;
         endOffset := currentOffset + js_length raw; metadata := None |}
      :: build_chunks cfg (Some raw) rs (i + 1) (currentOffset + js_length raw)
  end.

(** [chunkText]; [None] when the hard split does not terminate. *)
Definition chunkText (text : str) (cfg : ChunkConfig) : option (list TextChunk) :=
  match splitRecursively cfg text (separators cfg) with
  | Some rawChunks =>
      Some (filter (fun c => 0 <? js_length (content c)) (build_chunks cfg None rawChunks 0 0))
  | None => None
  end.

Definition with_content (c : TextChunk) (s : str) (e : Z) : TextChunk :=
  {| content := s; index := index c; startOffset := startOffset c;
     endOffset := e; metadata := metadata c |}.

Definition with_index (c : TextChunk) (i : Z) : TextChunk :=
  {| content := content c; index := i; startOffset := startOffset c;
     endOffset := endOffset c; metadata := metadata c |}.

(** The loop of [mergeSmallChunks] once [current] is set. *)
Fixpoint merge_loop (minSize : Z) (chunks : list TextChunk) (merged : list TextChunk)
    (current : TextChunk) : list TextChunk :=
  match chunks with
  | [] => merged ++ [with_index current (Z.of_nat (length merged))]
  | chunk :: rest =>
      if js_length (content current) <? minSize
      then merge_loop minSize rest merged
             (with_content current (content current ++ newline ++ newline ++ content chunk)
                (endOffset chunk))
      else merge_loop minSize rest (merged ++ [current])
             (with_index chunk (Z.of_nat (length (merged ++ [current]))))
  end.

(** [mergeSmallChunks]. *)
Definition mergeSmallChunks (chunks : list TextChunk) (minSize : Z) : list TextChunk :=
  match chunks with
  | [] => []
  | first :: rest => merge_loop minSize rest [] first
  end.

End Chunking.

(** ** Token counting ([src/src/processing/tokenization.ts], [GPTTokenCounter]) *)
Module Tokenization.

(** [text.split(/\s+/)]: pieces between maximal runs of whitespace; a
    leading (trailing) run gives an empty first (last) piece.  [in_run]
    holds while scanning a run, [acc] is the current piece, reversed. *)
Fixpoint split_ws (s : str) (acc : str) (in_run : bool) : list str :=
  match s with
  | [] => [rev acc]
  | c :: s' =>
      if is_ws c
      then if in_run then split_ws s' acc true else rev acc :: split_ws s' [] true
      else split_ws s' (c :: acc) false
  end.

Definition words (text : str) : list str := split_ws text [] false.

(** The punctuation class of [count]'s regex, by code unit: full stop,
    comma, [!], [?], [;], [:], single and double quote, parentheses,
    brackets and braces. *)
Definition is_punct (c : ascii) : bool :=
  existsb (Nat.eqb (nat_of_ascii c)) [46; 44; 33; 63; 59; 58; 39; 34; 40; 41; 91; 93; 123; 125]%nat.

Definition long_word_tokens (w : str) : Z :=
  if 10 <? js_length w then js_length w / 5 else 0.

(** [count]: [Math.ceil(words.length + 0.5 * punctuation + sum of
    floor(len / 5) over words longer than 10)]; the first and last summands
    are integers, so the ceiling only rounds the half. *)
Definition count (text : str) : Z :=
  let ws := words text in
  let p := Z.of_nat (length (filter is_punct text)) in
  Z.of_nat (length ws) + fold_left (fun acc w => acc + long_word_tokens w) ws 0 + (p + 1) / 2.

(** The binary search of [truncate]:
    [while (high - low > 10) { mid = floor((low + high) / 2); ... }]
    for at most [fuel] iterations; returns [low]. *)
Fixpoint search_loop (text : str) (maxTokens : Z) (fuel : nat) (low high : Z) : option Z :=
  match fuel with
  | O => None
  | S f =>
      if 10 <? high - low then
        let mid := (low + high) / 2 in
        if count (slice text 0 mid) <=? maxTokens
        then search_loop text maxTokens f mid high
        else search_loop text maxTokens f low mid
      else Some low
  end.

(** [truncate].  The test [lastSentence > low * 0.7] is taken on exact
    rationals, as [10 * lastSentence > 7 * low]. *)
Definition truncate (text : str) (maxTokens : Z) : option str :=
  if count text <=? maxTokens then Some text
  else
    match search_loop text maxTokens (S (length text)) 0 (js_length text) with
    | Some low =>
        let truncated := slice text 0 low in
        let lastSentence := lastIndexOf truncated (lit ". ") in
        let truncated := if 7 * low <? 10 * lastSentence
                         then slice truncated 0 (lastSentence + 1) else truncated in
        Some (trim truncated)
    | None => None
    end.

(** The loop of [split] for at most [fuel] iterations, [parts] so far;
    [None] means the loop has not exited. *)
Fixpoint split_loop (fuel : nat) (remaining : str) (maxTokens : Z) (parts : list str)
  : option (list str) :=
  match fuel with
  | O => None
  | S f =>
      if 0 <? js_length remaining then
        if count remaining <=? maxTokens then Some (parts ++ [remaining])
        else
          match truncate remaining maxTokens with
          | Some truncated =>
              split_loop f (trim (slice_from remaining (js_length truncated))) maxTokens
                (parts ++ [truncated])
          | None => None
          end
      else Some parts
  end.

(** [split(text, maxTokens)], with a fuel that suffices whenever every
    truncation consumes at least one code unit. *)
Definition split (text : str) (maxTokens : Z) : option (list str) :=
  split_loop (S (S (length text))) text maxTokens [].

End Tokenization.

(** ** More of the vector store ([src/src/rag/vector-store.ts]) *)
Module VectorStoreOps.
Import VectorStore.

(** [InMemoryVectorStore.delete]: [Map.prototype.delete] removes the key and
    returns whether it was present. *)
Definition delete (k : str) (m : store) : bool * store := (map_has k m, map_delete k m).

(** [InMemoryVectorStore.addBatch]: the awaited [add] calls run one after
    the other, each with its own clock reading; a throw rejects the batch
    with the documents before it already added.  The result is the store
    after the call and the error the batch rejects with, if any. *)
Fixpoint addBatch (cfg : VectorStoreConfig) (calls : list (Z * NewDocument)) (m : store)
  : store * option StoreError :=
  match calls with
  | [] => (m, None)
  | (now, doc) :: rest =>
      match add cfg now doc m with
      | Ok m' => addBatch cfg rest m'
      | Throw e => (m, Some e)
      end
  end.

End VectorStoreOps.

(** ** The local embedding provider of the embeddings module
    ([src/unnamed/part_009], [LocalEmbeddingProvider]) *)
Module LocalEmbeddings.
Import Tokenization.

(** [ToInt32]: the signed 32-bit integer congruent to [z] modulo [2^32]. *)
Definition to_int32 (z : Z) : Z := (z + 2 ^ 31) mod 2 ^ 32 - 2 ^ 31.

(** [String.prototype.toLowerCase] on one code unit of 0..255: [A-Z] and
    U+00C0..U+00DE except U+00D7 move up by 32. *)
Definition lower_unit (c : ascii) : ascii :=
  let n := nat_of_ascii c in
  if ((65 <=? n)%nat && (n <=? 90)%nat)
     || ((192 <=? n)%nat && (n <=? 222)%nat && negb (n =? 215)%nat)
  then ascii_of_nat (n + 32) else c.

Definition toLowerCase (s : str) : str := map lower_unit s.

(** The class [\w]: [A-Za-z0-9_]. *)
Definition is_word (c : ascii) : bool :=
  let n := nat_of_ascii c in
  ((48 <=? n)%nat && (n <=? 57)%nat) || ((65 <=? n)%nat && (n <=? 90)%nat)
  || ((97 <=? n)%nat && (n <=? 122)%nat) || (n =? 95)%nat.

Definition space : ascii := ascii_of_nat 32.

(** [.replace(/[^\w\s]/g, ' ')]. *)
Definition replace_non_word (s : str) : str :=
  map (fun c => if is_word c || is_ws c then c else space) s.

(** [tokenize]: lower-case, punctuation to spaces, [split(/\s+/)], and
    [filter(t => t.length > 2)]. *)
Definition tokenize (text : str) : list str :=
  filter (fun t => 2 <? js_length t) (words (replace_non_word (toLowerCase text))).

(** One iteration of [hashString]:
    [hash = ((hash << 5) - hash) + char; hash = hash & hash;]
    [<<] and [&] convert their operands with [ToInt32]; the sum in between
    is exact in a double. *)
Definition hash_step (hash : Z) (c : ascii) : Z :=
  let h := to_int32 (Z.shiftl (to_int32 hash) 5) - hash + Z.of_nat (nat_of_ascii c) in
  Z.land (to_int32 h) (to_int32 h).

(** [hashString]. *)
Definition hashString (s : str) : Z := fold_left hash_step s 0.

(** [Math.abs(hash) % this.dimensions] ([%] truncates, as [Z.rem]). *)
Definition bucket (dims : Z) (token : str) : Z := Z.rem (Z.abs (hashString token)) dims.

(** [embedding[index] += 1]. *)
Fixpoint bump (i : nat) (l : list Q) : list Q :=
  match l, i with
  | [], _ => []
  | x :: l', O => (x + 1)%Q :: l'
  | x :: l', S i' => x :: bump i' l'
  end.

(** The counting loop of [computeTFIDF], from [new Array(dims).fill(0)];
    [dims] is the provider's (positive, integral) dimension. *)
Definition term_counts (dims : Z) (tokens : list str) : list Q :=
  fold_left (fun e t => bump (Z.to_nat (bucket dims t)) e) tokens (repeat 0%Q (Z.to_nat dims)).

Definition sum_squares (e : list Q) : Q := fold_left (fun sum v => sum + v * v)%Q e 0%Q.

Section WithSqrt.

(** [Math.sqrt]; arithmetic on [Q] instead of doubles. *)
Variable js_sqrt : Q -> Q.

(** [computeTFIDF]: count, then divide by the magnitude when it is
    positive. *)
Definition computeTFIDF (dims : Z) (tokens : list str) : list Q :=
  let e := term_counts dims tokens in
  let magnitude := js_sqrt (sum_squares e) in
  if Qle_bool magnitude 0 then e else map (fun v => v / magnitude)%Q e.

Record EmbeddingResult := {
  er_embedding : list Q;
  er_text : str;
  er_model : str;
  er_dimensions : Z
}.

(** [LocalEmbeddingProvider.embed] for a provider of dimension [dims]. *)
Definition embed (dims : Z) (text : str) : EmbeddingResult :=
  let e := computeTFIDF dims (tokenize text) in
  {| er_embedding := e; er_text := text; er_model := lit "local-tfidf";
     er_dimensions := Z.of_nat (length e) |}.

End WithSqrt.

(** [config.dimensions || 512] in the provider's constructor. *)
Definition provider_dimensions (configured : Z) : Z :=
  if configured =? 0 then 512 else configured.

End LocalEmbeddings.

(** ** The character-based counter ([src/src/processing/tokenization.ts],
    [SimpleTokenCounter]) *)
Module SimpleTokenCounter.

(** [charsPerToken] is a positive integer ([4] in [createTokenCounter]). *)
Section WithRate.
Variable charsPerToken : Z.

(** [Math.ceil(text.length / this.charsPerToken)]. *)
Definition count (text : str) : Z := (js_length text + charsPerToken - 1) / charsPerToken.

(** [truncate].  The tests [lastSentence > maxChars * 0.7] and
    [lastSpace > maxChars * 0.9] are taken on exact rationals. *)
Definition truncate (text : str) (maxTokens : Z) : str :=
  let maxChars := maxTokens * charsPerToken in
  if js_length text <=? maxChars then text
  else
    let truncated := slice text 0 maxChars in
    let lastSentence := lastIndexOf truncated (lit ". ") in
    if 7 * maxChars <? 10 * lastSentence then slice truncated 0 (lastSentence + 1)
    else
      let lastSpace := lastIndexOf truncated (lit " ") in
      if 9 * maxChars <? 10 * lastSpace then slice truncated 0 lastSpace ++ lit "..."
      else truncated ++ lit "...".

(** The split point chosen by [split] for [remaining]. *)
Definition split_point (remaining : str) (maxChars : Z) : Z :=
  let lastSentence := lastIndexOf (slice remaining 0 maxChars) (lit ". ") in
  if maxChars <? 2 * lastSentence then lastSentence + 1
  else
    let lastSpace := lastIndexOf (slice remaining 0 maxChars) (lit " ") in
    if 7 * maxChars <? 10 * lastSpace then lastSpace else maxChars.

(** The loop of [split] for at most [fuel] iterations; [None] means it has
    not exited. *)
Fixpoint split_loop (fuel : nat) (remaining : str) (maxChars : Z) (parts : list str)
  : option (list str) :=
  match fuel with
  | O => None
  | S f =>
      if 0 <? js_length remaining then
        if js_length remaining <=? maxChars then Some (parts ++ [remaining])
        else
          let splitPoint := split_point remaining maxChars in
          split_loop f (trim (slice_from remaining splitPoint)) maxChars
            (parts ++ [trim (slice remaining 0 splitPoint)])
      else Some parts
  end.

(** [split(text, maxTokens)]; the fuel suffices whenever every iteration
    consumes at least one code unit. *)
Definition split (text : str) (maxTokens : Z) : option (list str) :=
  split_loop (S (S (length text))) text (maxTokens * charsPerToken) [].

End WithRate.

End SimpleTokenCounter.

(** ** Sentence chunking ([src/src/processing/chunking.ts], [chunkBySentences]) *)
Module Sentences.
Import Chunking.

(** The class [[.!?]]. *)
Definition is_terminator (c : ascii) : bool :=
  let n := nat_of_ascii c in ((n =? 46) || (n =? 33) || (n =? 63))%nat.

(** The matches of [/[^.!?]*[.!?]+/g], scanned left to right: [acc] is the
    current match, reversed, and [in_term] holds once it has reached its
    run of terminators.  A match always starts where the previous one
    ended; text after the last terminator matches nothing. *)
Fixpoint sentence_matches (s : str) (acc : str) (in_term : bool) : list str :=
  match s with
  | [] => if in_term then [rev acc] else []
  | c :: s' =>
      if is_terminator c then sentence_matches s' (c :: acc) true
      else if in_term then rev acc :: sentence_matches s' [c] false
      else sentence_matches s' (c :: acc) false
  end.

(** [text.match(sentenceRegex) || [text]]. *)
Definition sentences (text : str) : list str :=
  match sentence_matches text [] false with
  | [] => [text]
  | ms => ms
  end.

Definition single_space : str := [ascii_of_nat 32].

(** The loop [for (let i = 0; i < sentences.length; i += sentencesPerChunk)]
    for at most [fuel] iterations; [None] means it has not exited. *)
Fixpoint sentence_loop (fuel : nat) (ss : list str) (sentencesPerChunk : Z) (i : Z)
    (chunks : list TextChunk) (currentOffset : Z) : option (list TextChunk) :=
  match fuel with
  | O => None
  | S f =>
      if i <? Z.of_nat (length ss) then
        let content := trim (join single_space (slice ss i (i + sentencesPerChunk))) in
        sentence_loop f ss sentencesPerChunk (i + sentencesPerChunk)
          (chunks ++ [{| content := content; index := Z.of_nat (length chunks);
                         startOffset := currentOffset;
                         endOffset := currentOffset + js_length content;
                         metadata := None |}])
          (currentOffset + js_length content + 1)
      else Some chunks
  end.

(** [chunkBySentences(text, sentencesPerChunk)]; the fuel suffices for
    [sentencesPerChunk >= 1]. *)
Definition chunkBySentences (text : str) (sentencesPerChunk : Z) : option (list TextChunk) :=
  let ss := sentences text in
  sentence_loop (S (length ss)) ss sentencesPerChunk 0 [] 0.

End Sentences.

(** ** Document ids of the indexer ([src/src/rag/retrieval.ts], [Indexer]) *)
Module IndexerIds.

(** [String(n)] for a non-negative integer: its decimal digits. *)
Definition number_string (n : N) : str :=
  list_ascii_of_string (DecimalString.NilEmpty.string_of_uint (N.to_uint n)).

(** [`doc-${Date.now()}-${this.idCounter++}`], with [now] the value of
    [Date.now()] and [counter] the value of [idCounter] before the
    increment. *)
Definition make_id (now counter : N) : str :=
  lit "doc-" ++ number_string now ++ lit "-" ++ number_string counter.

End IndexerIds.


(** ** Predicates on stores *)
Module VectorStoreSpec.
Import VectorStore.

(** Creation order of documents. *)
Definition created_le (a b : VectorDocument) : Prop := createdAt a <= createdAt b.

(** What every store built by a sequence of [add] calls with distinct ids
    and a non-decreasing clock satisfies. *)
Definition fifo_inv (N : nat) (m : store) : Prop :=
  well_formed m /\ (length m <= N)%nat /\ Sorted created_le (values m).

(** The map entry [add] creates for a document added at time [fst c]. *)
Definition entry (c : Z * NewDocument) : str * VectorDocument :=
  (nd_id (snd c), stamp (snd c) (fst c)).

End VectorStoreSpec.

(** ** Predicates on search results *)
Module SearchSpec.
Import VectorStore Search.

(** Non-increasing score order. *)
Definition desc (a b : SearchResult) : Prop := (score b <= score a)%Q.

End SearchSpec.

(** ** Predicates on chunking configurations and chunks *)
Module ChunkingSpec.
Import Chunking.

(** [0 <= chunkOverlap < maxChunkSize]. *)
Definition valid (cfg : ChunkConfig) : Prop :=
  0 <= chunkOverlap cfg /\ chunkOverlap cfg < maxChunkSize cfg.

(** A piece of at most [n] code units. *)
Definition fits (n : Z) (s : str) : Prop := js_length s <= n.

(** A whitespace code unit. *)
Definition blank (c : ascii) : Prop := is_ws c = true.

(** A chunk shorter than [minSize], the merge test of [mergeSmallChunks]. *)
Definition short (minSize : Z) (c : TextChunk) : Prop := js_length (content c) < minSize.

End ChunkingSpec.

(** ** Concrete stores and documents *)
Module StoreExamples.
Import VectorStore.

Definition doc_in (name text : String.string) : NewDocument :=
  {| nd_id := lit name; nd_content := lit text;
     nd_embedding := [1 # 1]; nd_metadata := None |}.

Definition cap2 : VectorStoreConfig :=
  {| dimensions := 1; similarityMetric := Cosine; maxDocuments := Some 2 |}.

Definition dims3 : VectorStoreConfig :=
  {| dimensions := 3; similarityMetric := Cosine; maxDocuments := Some 2 |}.

Definition three_adds : list (Z * NewDocument) :=
  [(10, {| nd_id := lit "doc1"; nd_content := lit "Test 1";
           nd_embedding := [1 # 10; 2 # 10; 3 # 10]; nd_metadata := None |});
   (10, {| nd_id := lit "doc2"; nd_content := lit "Test 2";
           nd_embedding := [4 # 10; 5 # 10; 6 # 10]; nd_metadata := None |});
   (11, {| nd_id := lit "doc3"; nd_content := lit "Test 3";
           nd_embedding := [7 # 10; 8 # 10; 9 # 10]; nd_metadata := None |})].

End StoreExamples.

(** ** Concrete search inputs *)
Module SearchExamples.
Import VectorStore Search.

Definition id_sqrt (x : Q) : Q := x.




End SearchExamples.

(** ** Concrete retrieval inputs *)
Module RetrievalExamples.
Import VectorStore Search Retrieval.

Definition cfg1 : VectorStoreConfig :=
  {| dimensions := 1; similarityMetric := Cosine; maxDocuments := None |}.

Definition long_doc_store : store :=
  [(lit "d", stamp {| nd_id := lit "d"; nd_content := lit "abcdefgh";
                      nd_embedding := [1 # 1]; nd_metadata := None |} 0)].

Definition embed_one (_ : str) : outcome (list Q) := Ok [1 # 1].

Definition small_context : RetrievalConfig :=
  {| topK := 5; minScore := 1 # 2; maxContextLength := 5; includeMetadata := true |}.

(** A [minScore] above every cosine similarity. *)
Definition high_min : RetrievalConfig :=
  {| topK := 5; minScore := 2 # 1; maxContextLength := 100; includeMetadata := true |}.

Definition roomy_context : RetrievalConfig :=
  {| topK := 5; minScore := 1 # 2; maxContextLength := 100; includeMetadata := true |}.

End RetrievalExamples.

(** ** Concrete chunking inputs *)
Module ChunkExamples.
Import Chunking.

(** [n] copies of the code unit [c]. *)
Definition rep (n : nat) (c : nat) : str := repeat (ascii_of_nat c) n.

Definition chunk_cfg (size overlap : Z) : ChunkConfig :=
  {| maxChunkSize := size; chunkOverlap := overlap;
     separators := separators defaultConfig; preserveStructure := true |}.

(** ["A" * n + "\n\n" + "B" * n]. *)
Definition two_blocks (n : nat) : str := rep n 65 ++ newline ++ newline ++ rep n 66.

(** No separators, [chunkOverlap = maxChunkSize = 3]. *)
Definition hard_cfg : ChunkConfig :=
  {| maxChunkSize := 3; chunkOverlap := 3; separators := []; preserveStructure := true |}.

Definition chunk_lengths (cs : list TextChunk) : list Z :=
  map (fun c => js_length (content c)) cs.

(** A chunk with the given content, numbered [i]. *)
Definition mk_chunk (s : str) (i : Z) : TextChunk :=
  {| content := s; index := i; startOffset := 0; endOffset := js_length s; metadata := None |}.

Definition chunks_5_10_49 : list TextChunk :=
  [mk_chunk (rep 5 97) 0; mk_chunk (rep 10 98) 1; mk_chunk (rep 49 99) 2].

End ChunkExamples.

(** ** Concrete stores for the store operations *)
Module StoreOpsExamples.
Import VectorStore VectorStoreSpec StoreExamples.

(** ["a"] added at time 1, then ["b"] at time 2. *)
Definition store_ab : store := map entry [(1, doc_in "a" "first"); (2, doc_in "b" "second")].

(** ["b"] (time 2) and ["c"] (time 3). *)
Definition store_bc : store := map entry [(2, doc_in "b" "second"); (3, doc_in "c" "third")].

(** ["a"], ["b"] and ["c"] (time 3). *)
Definition store_abc : store :=
  map entry [(1, doc_in "a" "first"); (2, doc_in "b" "second"); (3, doc_in "c" "third")].

Definition nolimit : VectorStoreConfig :=
  {| dimensions := 1; similarityMetric := Cosine; maxDocuments := None |}.

End StoreOpsExamples.


(** ** Predicates on contexts *)
Module RetrievalSpec.
(** The summed length of the parts of a context. *)
Definition total_length (ps : list str) : Z := fold_right (fun p acc => js_length p + acc) 0 ps.
End RetrievalSpec.


(** ** Concrete texts for the token counters *)
Module TokenExamples.

Definition sample : str := lit "The cat sat on the mat. The dog ran off.".

End TokenExamples.


(** ** Predicates on embeddings *)
Module EmbeddingSpec.
(** The sum of a vector's entries. *)
Definition Qsum (l : list Q) : Q := fold_right Qplus 0%Q l.

(** A code unit a token may hold: a digit, a lower-case ASCII letter or [_]. *)
Definition token_char (c : ascii) : bool :=
  let n := nat_of_ascii c in
  ((48 <=? n)%nat && (n <=? 57)%nat) || ((97 <=? n)%nat && (n <=? 122)%nat) || (n =? 95)%nat.

(** The polynomial hash [sum of c_i * 31^(len-1-i)], computed exactly. *)
Definition poly_hash (s : str) : Z :=
  fold_left (fun h c => 31 * h + Z.of_nat (nat_of_ascii c)) s 0.
(** Entries that are counts. *)
Definition is_count (v : Q) : Prop := exists k, 0 <= k /\ (v == inject_Z k)%Q.

End EmbeddingSpec.


(** ** Predicates on sentences *)
Module SentenceSpec.
Import Chunking Sentences.
Definition no_terminator (s : str) : Prop := Forall (fun c => is_terminator c = false) s.
(** A match of the sentence regex ends with a terminator. *)
Definition ends_with_terminator (s : str) : Prop :=
  exists init c, s = init ++ [c] /\ is_terminator c = true.

(** Shape of the chunks built so far. *)
Definition laid_out (chunks : list TextChunk) (off : Z) : Prop :=
  (forall j c, nth_error chunks j = Some c ->
     index c = Z.of_nat j /\ endOffset c = startOffset c + js_length (content c) /\
     (forall c', nth_error chunks (S j) = Some c' -> startOffset c' = endOffset c + 1)) /\
  (forall c, nth_error chunks 0 = Some c -> startOffset c = 0) /\
  ((chunks = [] /\ off = 0) \/ exists init c, chunks = init ++ [c] /\ off = endOffset c + 1).

(** Contents of the chunks built so far. *)
Definition contents_ok (ss : list str) (n : Z) (chunks : list TextChunk) : Prop :=
  forall j c, nth_error chunks j = Some c ->
    content c = trim (join single_space (slice ss (Z.of_nat j * n) (Z.of_nat j * n + n))).

End SentenceSpec.


(** ** A concrete text for the sentence chunker *)
Module SentenceExamples.
Import Sentences.

Definition three_sentences : str := lit "One. Two! Three? tail".

End SentenceExamples.


(** ** Characters of document ids *)
Module IndexerIdSpec.

Definition dash : ascii := ascii_of_nat 45.

End IndexerIdSpec.


(** ** Facts about strings *)
Module JsStringFacts.

Lemma str_eqb_true a b : str_eqb a b = true <-> a = b.
Proof. unfold str_eqb; destruct (list_eq_dec ascii_dec a b); split; congruence. Qed.

Lemma str_eqb_refl a : str_eqb a a = true.
Proof. apply str_eqb_true; reflexivity. Qed.

Lemma str_eqb_false a b : a <> b -> str_eqb a b = false.
Proof. intros H; unfold str_eqb; destruct (list_eq_dec ascii_dec a b); congruence. Qed.

End JsStringFacts.

Import JsStringFacts.

(** ** Facts about the vector store *)
Module VectorStoreFacts.
Import VectorStore VectorStoreSpec.

Lemma map_has_false k (m : store) : ~ In k (map fst m) -> map_has k m = false.
Proof.
  intros H; unfold map_has.
  destruct (existsb _ m) eqn:E; [|reflexivity].
  apply existsb_exists in E as [kv [Hin Heq]]; destruct kv as [k' v].
  apply str_eqb_true in Heq; simpl in Heq; subst.
  exfalso; apply H, (in_map fst _ (k', v)); assumption.
Qed.

Lemma map_has_true k (m : store) : In k (map fst m) -> map_has k m = true.
Proof.
  intros H; unfold map_has; apply existsb_exists.
  apply in_map_iff in H as [kv [Hk Hin]].
  exists kv; split; [assumption|]; rewrite <- Hk; apply str_eqb_refl.
Qed.

Lemma map_set_new k v (m : store) : ~ In k (map fst m) -> map_set k v m = m ++ [(k, v)].
Proof. intros H; unfold map_set; rewrite map_has_false by assumption; reflexivity. Qed.

Lemma keys_map_set k v (m : store) :
  map fst (map_set k v m) =
  if map_has k m then map fst m else map fst m ++ [k].
Proof.
  unfold map_set; destruct (map_has k m).
  - rewrite map_map; apply map_ext; intros [k' v']; simpl.
    destruct (str_eqb k k'); reflexivity.
  - rewrite map_app; reflexivity.
Qed.

Lemma filter_keep_all {A} (f : A -> bool) (l : list A) :
  (forall x, In x l -> f x = true) -> filter f l = l.
Proof.
  induction l as [|x l IH]; intros H; simpl; [reflexivity|].
  rewrite (H x (or_introl eq_refl)), IH; [reflexivity|].
  intros y Hy; apply H; right; assumption.
Qed.

Lemma sort_created_sorted (l : list VectorDocument) :
  Sorted (fun a b => createdAt a <= createdAt b) l -> sort_created l = l.
Proof.
  induction l as [|x l IH]; intros H; simpl; [reflexivity|].
  apply Sorted_inv in H as [Hl Hhd].
  rewrite IH by assumption.
  destruct l as [|y l]; simpl; [reflexivity|].
  apply HdRel_inv in Hhd.
  apply Z.leb_le in Hhd; rewrite Hhd; reflexivity.
Qed.

Lemma Sorted_snoc {A} (R : A -> A -> Prop) (l : list A) (x : A) :
  Sorted R l -> Forall (fun y => R y x) l -> Sorted R (l ++ [x]).
Proof.
  induction l as [|y l IH]; intros Hs Hf; simpl.
  - constructor; constructor.
  - apply Sorted_inv in Hs as [Hl Hhd].
    inversion Hf; subst.
    constructor; [apply IH; assumption|].
    destruct l as [|z l]; simpl; constructor.
    + assumption.
    + apply HdRel_inv in Hhd; assumption.
Qed.

Lemma lastn_snoc_full {A} (N : nat) (k0 : A) (ks : list A) (x : A) :
  length (k0 :: ks) = N -> lastn N (k0 :: ks ++ [x]) = ks ++ [x].
Proof.
  intros H; unfold lastn.
  replace (length (k0 :: ks ++ [x]) - N)%nat with 1%nat
    by (subst N; simpl; rewrite length_app; simpl; lia).
  reflexivity.
Qed.

Lemma lastn_short {A} (N : nat) (l : list A) : (length l <= N)%nat -> lastn N l = l.
Proof.
  intros H; unfold lastn; replace (length l - N)%nat with 0%nat by lia; reflexivity.
Qed.

Lemma lastn_app_skipn {A} (N : nat) (l r : list A) :
  lastn N l ++ r = skipn (length l - N) (l ++ r).
Proof.
  unfold lastn; rewrite skipn_app.
  replace (length l - N - length l)%nat with 0%nat by lia; reflexivity.
Qed.

Lemma lastn_lastn_app {A} (N : nat) (l r : list A) :
  lastn N (lastn N l ++ r) = lastn N (l ++ r).
Proof.
  rewrite lastn_app_skipn; unfold lastn.
  rewrite skipn_skipn, length_skipn, length_app.
  f_equal; lia.
Qed.

Lemma lastn_map {A B} (f : A -> B) (N : nat) (l : list A) :
  map f (lastn N l) = lastn N (map f l).
Proof. unfold lastn; rewrite length_map; symmetry; apply skipn_map. Qed.

Lemma map_has_false_inv k (m : store) : map_has k m = false -> ~ In k (map fst m).
Proof. intros H Hin; rewrite (map_has_true k m Hin) in H; discriminate. Qed.

Lemma NoDup_snoc {A} (l : list A) (x : A) : NoDup l -> ~ In x l -> NoDup (l ++ [x]).
Proof.
  intros Hl Hx; apply (Permutation_NoDup (Permutation_cons_append l x)).
  constructor; assumption.
Qed.

Lemma NoDup_skipn {A} (n : nat) (l : list A) : NoDup l -> NoDup (skipn n l).
Proof.
  intros H; rewrite <- (firstn_skipn n l) in H.
  apply NoDup_app_remove_l in H; assumption.
Qed.

Lemma snoc_fifo_inv N now d m :
  fifo_inv N m -> (length m < N)%nat ->
  Forall (fun x => createdAt x <= now) (values m) ->
  ~ In (nd_id d) (map fst m) ->
  fifo_inv N (m ++ [entry (now, d)]) /\
  Forall (fun x => createdAt x <= now) (values (m ++ [entry (now, d)])).
Proof.
  intros [[Hnd Hkid] [_ Hs]] Hlt Hle Hnew.
  unfold fifo_inv, well_formed, values in *; rewrite !map_app; simpl.
  repeat split.
  - apply NoDup_snoc; assumption.
  - apply Forall_app; split; [assumption|]; repeat constructor.
  - rewrite length_app; simpl; lia.
  - apply Sorted_snoc; [assumption|].
    eapply Forall_impl; [|exact Hle]; intros x Hx; exact Hx.
  - apply Forall_app; split; [assumption|]; repeat constructor; simpl; lia.
Qed.

(** One [add] of a fresh id at time [now] on a store whose entries are no
    younger than [now]: the store becomes the [N] last entries. *)
Lemma add_step cfg N now d m :
  maxDocuments cfg = Some (Z.of_nat N) -> (0 < N)%nat ->
  Z.of_nat (length (nd_embedding d)) = dimensions cfg ->
  ~ In (nd_id d) (map fst m) ->
  fifo_inv N m -> Forall (fun x => createdAt x <= now) (values m) ->
  add cfg now d m = Ok (lastn N (m ++ [entry (now, d)])) /\
  fifo_inv N (lastn N (m ++ [entry (now, d)])) /\
  Forall (fun x => createdAt x <= now) (values (lastn N (m ++ [entry (now, d)]))).
Proof.
  intros HN Hpos Hdim Hnew Hinv Hle.
  pose proof Hinv as [[Hnd Hkid] [Hlen Hs]].
  unfold add; rewrite Hdim, Z.eqb_refl; cbn [negb].
  unfold at_capacity; rewrite HN.
  destruct (Nat.eq_dec (length m) N) as [Heq | Hne].
  - replace (negb (Z.of_nat N =? 0) && (Z.of_nat N <=? Z.of_nat (size m))) with true
      by (unfold size; symmetry; apply andb_true_intro; split;
          [apply negb_true_iff, Z.eqb_neq; lia | apply Z.leb_le; lia]).
    rewrite (sort_created_sorted _ Hs).
    destruct m as [|[k0 v0] m']; [simpl in Heq; lia|].
    inversion Hnd as [|? ? Hk0 Hnd']; subst.
    inversion Hkid as [|? ? Hkv Hkid']; subst; simpl in Hkv.
    assert (Hdel : map_delete (id v0) ((k0, v0) :: m') = m').
    { unfold map_delete; simpl; rewrite <- Hkv, str_eqb_refl; simpl.
      apply filter_keep_all; intros kv Hin.
      apply negb_true_iff, str_eqb_false; intros E.
      apply Hk0; rewrite E; apply in_map; assumption. }
    change (values ((k0, v0) :: m')) with (v0 :: values m'); cbn iota beta.
    rewrite Hdel.
    assert (Hnew' : ~ In (nd_id d) (map fst m')) by (intros H; apply Hnew; right; exact H).
    rewrite map_set_new by assumption.
    assert (Hl : lastn (length ((k0, v0) :: m')) (((k0, v0) :: m') ++ [entry (now, d)])
                 = m' ++ [entry (now, d)]) by (apply lastn_snoc_full; reflexivity).
    rewrite Hl.
    apply Sorted_inv in Hs as [Hs' _].
    simpl in Hle; apply Forall_inv_tail in Hle.
    destruct (snoc_fifo_inv (length ((k0, v0) :: m')) now d m') as [H1 H2].
    + split; [split; assumption|]; split; [simpl; lia|assumption].
    + simpl; lia.
    + assumption.
    + assumption.
    + split; [reflexivity|split; assumption].
  - assert (Hlt : (length m < N)%nat) by lia.
    replace (negb (Z.of_nat N =? 0) && (Z.of_nat N <=? Z.of_nat (size m))) with false
      by (unfold size; symmetry; apply andb_false_iff; right; apply Z.leb_gt; lia).
    rewrite map_set_new by assumption.
    rewrite lastn_short by (rewrite length_app; simpl; lia).
    destruct (snoc_fifo_inv N now d m Hinv Hlt Hle Hnew) as [H1 H2].
    split; [reflexivity|split; assumption].
Qed.

Lemma add_sequence_fifo cfg N calls :
  maxDocuments cfg = Some (Z.of_nat N) -> (0 < N)%nat -> forall m,
  Forall (fun c => Z.of_nat (length (nd_embedding (snd c))) = dimensions cfg) calls ->
  NoDup (map fst m ++ map (fun c => nd_id (snd c)) calls) ->
  StronglySorted Z.le (map fst calls) ->
  Forall (fun x => forall c, In c calls -> createdAt x <= fst c) (values m) ->
  fifo_inv N m ->
  add_sequence cfg calls m = Ok (lastn N (m ++ map entry calls)).
Proof.
  intros HN Hpos.
  induction calls as [|[now d] rest IH]; intros m Hdim Hnd Hsort Hle Hinv; simpl.
  - rewrite app_nil_r, lastn_short; [reflexivity|apply Hinv].
  - inversion Hdim as [|? ? Hd Hdim']; subst.
    assert (Hnow : Forall (fun x => createdAt x <= now) (values m)).
    { eapply Forall_impl; [|exact Hle]; intros x Hx; apply (Hx (now, d)); left; reflexivity. }
    assert (Hnew : ~ In (nd_id d) (map fst m)).
    { intros Hin. simpl in Hnd. apply NoDup_remove_2 in Hnd. apply Hnd, in_or_app; left; exact Hin. }
    destruct (add_step cfg N now d m HN Hpos Hd Hnew Hinv Hnow) as [Hadd [Hinv' Hle']].
    rewrite Hadd.
    simpl in Hsort; apply StronglySorted_inv in Hsort as [Hsort' Hhd].
    rewrite IH; [| exact Hdim' | | exact Hsort' | | exact Hinv'].
    + rewrite lastn_lastn_app, <- app_assoc; reflexivity.
    + rewrite lastn_map, lastn_app_skipn.
      apply NoDup_skipn; rewrite map_app, <- app_assoc; exact Hnd.
    + eapply Forall_impl; [|exact Hle']; intros x Hx c Hc.
      rewrite Forall_forall in Hhd.
      specialize (Hhd (fst c) (in_map fst _ _ Hc)); cbv beta in *; lia.
Qed.

Lemma import_values_app (suf pre : store) :
  NoDup (map fst (pre ++ suf)) ->
  Forall (fun kv => fst kv = id (snd kv)) suf ->
  import (values suf) pre = pre ++ suf.
Proof.
  revert pre; induction suf as [|[k v] suf IH]; intros pre Hnd Hk.
  - rewrite app_nil_r; reflexivity.
  - inversion Hk as [|? ? Hkv Hk']; subst; simpl in Hkv; subst k.
    change (import (values ((id v, v) :: suf)) pre)
      with (import (values suf) (map_set (id v) v pre)).
    rewrite map_set_new.
    + rewrite IH; [rewrite <- app_assoc; reflexivity| |exact Hk'].
      rewrite <- app_assoc; exact Hnd.
    + rewrite map_app in Hnd; apply NoDup_remove_2 in Hnd.
      intros Hin; apply Hnd, in_or_app; left; exact Hin.
Qed.

Lemma well_formed_map_set k v (m : store) :
  well_formed m -> k = id v -> well_formed (map_set k v m).
Proof.
  intros [Hnd Hk] Hkv; unfold map_set.
  destruct (map_has k m) eqn:E; split.
  - rewrite map_map.
    replace (map (fun x => fst (if str_eqb k (fst x) then (fst x, v) else x)) m)
      with (map fst m); [exact Hnd|].
    apply map_ext; intros kv; destruct (str_eqb k (fst kv)); reflexivity.
  - apply Forall_map; eapply Forall_impl; [|exact Hk]; intros kv H.
    destruct (str_eqb k (fst kv)) eqn:Ek; simpl; [|exact H].
    apply str_eqb_true in Ek; congruence.
  - rewrite map_app; apply NoDup_snoc; [exact Hnd|apply map_has_false_inv; exact E].
  - apply Forall_app; split; [exact Hk|repeat constructor; exact Hkv].
Qed.

Lemma well_formed_map_delete k (m : store) : well_formed m -> well_formed (map_delete k m).
Proof.
  intros [Hnd Hk]; unfold map_delete; split.
  - induction m as [|kv m IH]; simpl; [constructor|].
    inversion Hnd; subst; inversion Hk; subst.
    destruct (negb (str_eqb k (fst kv))); simpl; [|apply IH; assumption].
    constructor; [|apply IH; assumption].
    intros Hin; apply in_map_iff in Hin as [kv' [E Hin]].
    apply filter_In in Hin as [Hin _].
    match goal with H : ~ In _ _ |- _ => apply H end.
    rewrite <- E; apply in_map; exact Hin.
  - rewrite Forall_forall in *; intros kv Hin; apply filter_In in Hin as [Hin _].
    apply Hk; exact Hin.
Qed.

(** Every store the class builds is well formed: [add] and [import]
    preserve the shape (as do [delete] and [clear]). *)
Lemma add_well_formed cfg now d (m m' : store) :
  well_formed m -> add cfg now d m = Ok m' -> well_formed m'.
Proof.
  intros Hwf Hadd; unfold add in Hadd.
  destruct (negb _); [discriminate|].
  injection Hadd as <-.
  apply well_formed_map_set; [|reflexivity].
  destruct (at_capacity cfg m); [|exact Hwf].
  destruct (sort_created (values m)); [exact Hwf|].
  apply well_formed_map_delete; exact Hwf.
Qed.

Lemma import_well_formed docs (m : store) : well_formed m -> well_formed (import docs m).
Proof.
  revert m; induction docs as [|d docs IH]; intros m Hwf; [exact Hwf|].
  change (import (d :: docs) m) with (import docs (map_set (id d) d m)).
  apply IH, well_formed_map_set; [exact Hwf|reflexivity].
Qed.

End VectorStoreFacts.

(** ** Facts about search *)
Module SearchFacts.
Import VectorStore Search SearchSpec.

Lemma insert_score_perm x (l : list SearchResult) : Permutation (x :: l) (insert_score x l).
Proof.
  induction l as [|y l IH]; simpl; [reflexivity|].
  destruct (Qle_bool (score y) (score x)); [reflexivity|].
  rewrite perm_swap; constructor; exact IH.
Qed.

Lemma sort_score_perm (l : list SearchResult) : Permutation l (sort_score l).
Proof.
  induction l as [|x l IH]; simpl; [reflexivity|].
  rewrite <- insert_score_perm; constructor; exact IH.
Qed.

Lemma insert_score_hd y x (l : list SearchResult) :
  HdRel desc y l -> desc y x -> HdRel desc y (insert_score x l).
Proof.
  intros H Hyx; destruct l as [|z l]; simpl; [constructor; exact Hyx|].
  destruct (Qle_bool (score z) (score x)); constructor; [exact Hyx|].
  apply HdRel_inv in H; exact H.
Qed.

Lemma insert_score_sorted x (l : list SearchResult) :
  Sorted desc l -> Sorted desc (insert_score x l).
Proof.
  induction l as [|y l IH]; intros Hs; simpl; [repeat constructor|].
  destruct (Qle_bool (score y) (score x)) eqn:E.
  - constructor; [exact Hs|constructor; apply Qle_bool_iff; exact E].
  - apply Sorted_inv in Hs as [Hs Hhd].
    constructor; [apply IH; exact Hs|].
    apply insert_score_hd; [exact Hhd|].
    unfold desc; apply Qlt_le_weak, Qnot_le_lt.
    intros Hle; apply Qle_bool_iff in Hle; congruence.
Qed.

Lemma sort_score_sorted (l : list SearchResult) : Sorted desc (sort_score l).
Proof.
  induction l as [|x l IH]; simpl; [constructor|].
  apply insert_score_sorted; exact IH.
Qed.

Lemma Sorted_firstn {A} (R : A -> A -> Prop) n (l : list A) :
  Sorted R l -> Sorted R (firstn n l).
Proof.
  revert n; induction l as [|x l IH]; intros n Hs; destruct n as [|n]; simpl;
    [constructor|constructor|constructor|].
  apply Sorted_inv in Hs as [Hs Hhd].
  constructor; [apply IH; exact Hs|].
  destruct n, l; simpl; constructor.
  apply HdRel_inv in Hhd; exact Hhd.
Qed.

Lemma slice_0_nonneg {A} (l : list A) (k : Z) :
  0 <= k -> slice l 0 k = firstn (Z.to_nat k) l.
Proof.
  intros Hk; unfold slice, slice_index; simpl.
  replace (k <? 0) with false by (symmetry; apply Z.ltb_ge; lia).
  destruct (Z.min 0 (Z.of_nat (length l)) <? Z.min k (Z.of_nat (length l))) eqn:E.
  - apply Z.ltb_lt in E.
    replace (Z.min 0 (Z.of_nat (length l))) with 0 in * by lia.
    rewrite skipn_O, Z.sub_0_r.
    destruct (Z.min_spec k (Z.of_nat (length l))) as [[_ ->] | [H ->]]; [reflexivity|].
    rewrite Nat2Z.id, firstn_all, firstn_all2; [reflexivity|lia].
  - apply Z.ltb_ge in E.
    destruct (Z.min_spec k (Z.of_nat (length l))) as [[_ Hm] | [_ Hm]]; rewrite Hm in E.
    + replace (Z.to_nat k) with 0%nat by lia; reflexivity.
    + destruct l; [rewrite firstn_nil; reflexivity|simpl in E; lia].
Qed.







End SearchFacts.

(** ** Facts about retrieval *)
Module RetrievalFacts.
Import VectorStore Search Retrieval.

Lemma filter_all_below (min : Q) (l : list SearchResult) :
  Forall (fun r => (score r < min)%Q) l ->
  List.filter (fun r => Qle_bool min (score r)) l = [].
Proof.
  induction l as [|r l IH]; intros H; simpl; [reflexivity|].
  inversion H as [|? ? Hr H']; subst.
  destruct (Qle_bool min (score r)) eqn:E; [|apply IH; exact H'].
  apply Qle_bool_iff in E; exfalso; apply (Qlt_not_le _ _ Hr E).
Qed.

Lemma join_snoc_suffix (sep : str) (l : list str) (x : str) :
  exists pre, join sep (l ++ [x]) = pre ++ x.
Proof.
  induction l as [|a l [pre IH]]; simpl; [exists []; reflexivity|].
  destruct (l ++ [x]) eqn:E; [destruct l; discriminate|].
  rewrite IH; exists (a ++ sep ++ pre); rewrite !app_assoc; reflexivity.
Qed.

Lemma join_cons_prefix (sep : str) (x : str) (l : list str) :
  exists suf, join sep (x :: l) = x ++ suf.
Proof.
  destruct l as [|y l]; simpl; [exists []; rewrite app_nil_r; reflexivity|].
  exists (sep ++ join sep (y :: l)); reflexivity.
Qed.

Lemma formatDocument_ends_with_content (r : SearchResult) (cfg : RetrievalConfig) :
  exists pre, formatDocument r cfg = pre ++ content (document r).
Proof. unfold formatDocument; apply join_snoc_suffix. Qed.

End RetrievalFacts.

(** ** Facts about chunking *)
Module ChunkingFacts.
Import Chunking ChunkingSpec.

Lemma slice_length_le {A} (s : list A) i k :
  0 <= i -> 0 <= k -> Z.of_nat (length (slice s i (i + k))) <= k.
Proof.
  intros Hi Hk. unfold slice, slice_index. cbv zeta.
  destruct (i <? 0) eqn:E1; [apply Z.ltb_lt in E1; lia|].
  destruct (i + k <? 0) eqn:E2; [apply Z.ltb_lt in E2; lia|].
  destruct (Z.min i _ <? Z.min (i + k) _) eqn:E3; [|simpl; lia].
  rewrite length_firstn. lia.
Qed.

Lemma slice_from_length_le (s : str) k :
  0 < k -> js_length (slice_from s (- k)) <= k.
Proof.
  intros Hk. unfold slice_from, slice, slice_index, js_length. cbv zeta.
  destruct (- k <? 0) eqn:E1; [|apply Z.ltb_ge in E1; lia].
  destruct (Z.of_nat (length s) <? 0) eqn:E2; [apply Z.ltb_lt in E2; lia|].
  destruct (Z.max _ 0 <? Z.min _ _) eqn:E3; [|simpl; lia].
  rewrite length_firstn. lia.
Qed.

Lemma Forall_firstn_of {A} (P : A -> Prop) n l : Forall P l -> Forall P (firstn n l).
Proof.
  revert l. induction n as [|n IH]; intros l H; [constructor|].
  destruct l as [|a l]; [constructor|]. inversion H; subst. simpl. constructor; auto.
Qed.

Lemma Forall_skipn_of {A} (P : A -> Prop) n l : Forall P l -> Forall P (skipn n l).
Proof.
  revert l. induction n as [|n IH]; intros l H; [exact H|].
  destruct l as [|a l]; [constructor|]. inversion H; subst. simpl. auto.
Qed.

Lemma Forall_slice {A} (P : A -> Prop) s i j :
  Forall P s -> Forall P (slice s i j).
Proof.
  intros H. unfold slice. destruct (_ <? _); [|constructor].
  apply Forall_firstn_of, Forall_skipn_of, H.
Qed.

Lemma hard_split_loop_exits cfg text :
  1 <= maxChunkSize cfg - chunkOverlap cfg -> 0 <= maxChunkSize cfg ->
  forall fuel i, 0 <= i -> (0 < fuel)%nat -> js_length text - i < Z.of_nat fuel ->
  exists r, hard_split_loop cfg text fuel i = Some r /\ Forall (fits (maxChunkSize cfg)) r.
Proof.
  intros Hs Hm fuel. induction fuel as [|f IH]; intros i Hi Hf Hlt; [lia|].
  simpl. destruct (i <? js_length text) eqn:E.
  - apply Z.ltb_lt in E.
    destruct (IH (i + (maxChunkSize cfg - chunkOverlap cfg))) as [r [Hr Hall]]; [lia|lia|lia|].
    rewrite Hr. eexists; split; [reflexivity|]. constructor; [|exact Hall].
    unfold fits, js_length. apply slice_length_le; lia.
  - eexists; split; [reflexivity|constructor].
Qed.

Lemma hard_split_loop_diverges cfg text :
  maxChunkSize cfg - chunkOverlap cfg <= 0 ->
  forall fuel i, i < js_length text -> hard_split_loop cfg text fuel i = None.
Proof.
  intros Hs fuel. induction fuel as [|f IH]; intros i Hi; [reflexivity|].
  simpl. apply Z.ltb_lt in Hi as Hi'. rewrite Hi'.
  rewrite IH; [reflexivity|lia].
Qed.

Lemma hard_split_fits cfg text :
  valid cfg -> exists r, hard_split cfg text = Some r /\ Forall (fits (maxChunkSize cfg)) r.
Proof.
  intros [H1 H2]. unfold hard_split. apply hard_split_loop_exits; try lia.
  unfold js_length. lia.
Qed.

Lemma split_parts_fits cfg rec sep parts : forall result current,
  0 <= maxChunkSize cfg ->
  (forall part, In part parts -> maxChunkSize cfg < js_length part ->
     exists sub, rec part = Some sub /\ Forall (fits (maxChunkSize cfg)) sub) ->
  Forall (fits (maxChunkSize cfg)) result -> fits (maxChunkSize cfg) current ->
  exists out, split_parts cfg rec sep parts result current = Some out /\
              Forall (fits (maxChunkSize cfg)) out.
Proof.
  induction parts as [|part ps IH]; intros result current Hm Hrec Hres Hcur.
  - simpl. eexists; split; [reflexivity|].
    destruct current; [exact Hres|]. apply Forall_app; split; [exact Hres|constructor; [exact Hcur|constructor]].
  - assert (Hres' : Forall (fits (maxChunkSize cfg))
              (match current with [] => result | _ => result ++ [current] end)).
    { destruct current; [exact Hres|]. apply Forall_app; split; [exact Hres|constructor; [exact Hcur|constructor]]. }
    assert (Hrec' : forall p, In p ps -> maxChunkSize cfg < js_length p ->
               exists sub, rec p = Some sub /\ Forall (fits (maxChunkSize cfg)) sub).
    { intros p Hp. apply Hrec. right; exact Hp. }
    cbn [split_parts].
    destruct (js_length _ <=? maxChunkSize cfg) eqn:E1.
    + apply IH; auto. apply Z.leb_le in E1. exact E1.
    + destruct (maxChunkSize cfg <? js_length part) eqn:E2.
      * apply Z.ltb_lt in E2. destruct (Hrec part (or_introl eq_refl) E2) as [sub [Hs Hsub]].
        rewrite Hs. apply IH; [exact Hm|exact Hrec'| |].
        -- apply Forall_app; split; assumption.
        -- unfold fits, js_length; simpl; lia.
      * apply Z.ltb_ge in E2. apply IH; auto.
Qed.

Lemma splitRecursively_fits cfg : valid cfg ->
  forall seps text, exists raws, splitRecursively cfg text seps = Some raws /\
                                 Forall (fits (maxChunkSize cfg)) raws.
Proof.
  intros Hv seps. induction seps as [|sep rest IH]; intros text; simpl.
  - destruct (js_length text <=? maxChunkSize cfg) eqn:E.
    + eexists; split; [reflexivity|]. constructor; [apply Z.leb_le, E|constructor].
    + apply hard_split_fits, Hv.
  - destruct (js_length text <=? maxChunkSize cfg) eqn:E.
    + eexists; split; [reflexivity|]. constructor; [apply Z.leb_le, E|constructor].
    + destruct Hv as [H1 H2]. apply split_parts_fits; try constructor.
      * lia.
      * intros part _ _. apply IH.
      * unfold fits, js_length; simpl; lia.
Qed.

Lemma drop_ws_length s : (length (drop_ws s) <= length s)%nat.
Proof. induction s as [|c s IH]; simpl; [lia|]. destruct (is_ws c); simpl; lia. Qed.

Lemma trim_length s : (length (trim s) <= length s)%nat.
Proof.
  unfold trim. rewrite length_rev.
  pose proof (drop_ws_length (rev (drop_ws s))). rewrite length_rev in H.
  pose proof (drop_ws_length s). lia.
Qed.

Lemma build_chunks_fits cfg : valid cfg ->
  forall raws prev i off,
  Forall (fits (maxChunkSize cfg)) raws ->
  Forall (fun c => js_length (content c) <= maxChunkSize cfg + chunkOverlap cfg)
    (build_chunks cfg prev raws i off).
Proof.
  intros [H1 H2] raws. induction raws as [|raw rs IH]; intros prev i off Hr; simpl; [constructor|].
  inversion Hr as [|? ? Hraw Hrs]; subst. constructor; [|apply IH, Hrs].
  unfold fits, js_length in *. cbn [content].
  eapply Z.le_trans; [apply inj_le, trim_length|].
  destruct prev as [p|]; [|lia].
  destruct (0 <? chunkOverlap cfg) eqn:E; [|lia].
  apply Z.ltb_lt in E. pose proof (slice_from_length_le p (chunkOverlap cfg) E).
  unfold js_length in *. rewrite length_app. lia.
Qed.

Lemma Forall_filter_of {A} (P : A -> Prop) f l : Forall P l -> Forall P (filter f l).
Proof.
  intros H. apply Forall_forall. intros x Hx. apply filter_In in Hx.
  rewrite Forall_forall in H. apply H, Hx.
Qed.

Lemma chunkText_fits cfg text : valid cfg ->
  exists cs, chunkText text cfg = Some cs /\
    Forall (fun c => js_length (content c) <= maxChunkSize cfg + chunkOverlap cfg) cs.
Proof.
  intros Hv. unfold chunkText.
  destruct (splitRecursively_fits cfg Hv (separators cfg) text) as [raws [Hs Hf]].
  rewrite Hs. eexists; split; [reflexivity|].
  apply Forall_filter_of, build_chunks_fits; assumption.
Qed.

(** Whitespace and [trim]. *)
Lemma drop_ws_head s a r : drop_ws s = a :: r -> is_ws a = false.
Proof.
  induction s as [|c s IH]; simpl; [discriminate|].
  destruct (is_ws c) eqn:E; [exact IH|]. intros H; injection H; intros; subst; exact E.
Qed.

Lemma drop_ws_suffix s : exists w, s = w ++ drop_ws s.
Proof.
  induction s as [|c s [w Hw]]; simpl; [exists []; reflexivity|].
  destruct (is_ws c); [exists (c :: w); simpl; f_equal; exact Hw|exists []; reflexivity].
Qed.

Lemma drop_ws_blank s : Forall blank s -> drop_ws s = [].
Proof.
  induction s as [|c s IH]; intros H; [reflexivity|].
  inversion H as [|? ? Hc Hs]; subst. simpl. unfold blank in Hc. rewrite Hc. apply IH, Hs.
Qed.

Lemma trim_blank s : Forall blank s -> trim s = [].
Proof. intros H. unfold trim. rewrite (drop_ws_blank s H). reflexivity. Qed.

Lemma trim_first s a r : trim s = a :: r -> is_ws a = false.
Proof.
  unfold trim. intros H.
  destruct (drop_ws_suffix (rev (drop_ws s))) as [w Hw].
  apply (f_equal (@rev ascii)) in Hw. rewrite rev_involutive, rev_app_distr, H in Hw.
  simpl in Hw. exact (drop_ws_head s a _ Hw).
Qed.

Lemma trim_last s init a : trim s = init ++ [a] -> is_ws a = false.
Proof.
  unfold trim. intros H.
  apply (f_equal (@rev ascii)) in H. rewrite rev_involutive, rev_app_distr in H.
  simpl in H. exact (drop_ws_head _ a _ H).
Qed.

(** Separators and [split]. *)
Lemma prefixb_app p s : prefixb p s = true -> exists t, s = p ++ t.
Proof.
  revert s. induction p as [|a p IH]; intros s H; [exists s; reflexivity|].
  destruct s as [|b s]; [discriminate|]. simpl in H.
  apply andb_prop in H as [Hab Hp]. apply Ascii.eqb_eq in Hab. subst b.
  destruct (IH s Hp) as [t Ht]. exists t. simpl. f_equal. exact Ht.
Qed.

Lemma split_aux_chars (P : ascii -> Prop) sep s : forall k acc,
  Forall P s -> Forall P acc -> Forall (Forall P) (split_aux sep s k acc).
Proof.
  induction s as [|c s IH]; intros k acc Hs Hacc; simpl.
  - constructor; [apply Forall_rev, Hacc|constructor].
  - inversion Hs as [|? ? Hc Hs']; subst.
    destruct k as [|k]; [|apply IH; assumption].
    destruct (prefixb sep (c :: s)).
    + constructor; [apply Forall_rev, Hacc|]. apply IH; [assumption|constructor].
    + apply IH; [assumption|constructor; assumption].
Qed.

Lemma split_aux_match sep s : forall k acc,
  (2 <= length (split_aux sep s k acc))%nat ->
  exists w t, s = w ++ t /\ prefixb sep t = true.
Proof.
  induction s as [|c s IH]; intros k acc H; simpl in H; [lia|].
  destruct k as [|k].
  - destruct (prefixb sep (c :: s)) eqn:E; [exists [], (c :: s); split; [reflexivity|exact E]|].
    destruct (IH _ _ H) as [w [t [Hw Ht]]]. exists (c :: w), t. subst s. split; [reflexivity|exact Ht].
  - destruct (IH _ _ H) as [w [t [Hw Ht]]]. exists (c :: w), t. subst s. split; [reflexivity|exact Ht].
Qed.

Lemma js_split_chars (P : ascii -> Prop) s sep :
  Forall P s -> Forall (Forall P) (js_split s sep).
Proof.
  intros H. unfold js_split. destruct sep as [|a sep'].
  - induction H; simpl; constructor; [constructor; [assumption|constructor]|assumption].
  - apply split_aux_chars; [exact H|constructor].
Qed.

Lemma js_split_sep (P : ascii -> Prop) s sep :
  Forall P s -> (2 <= length (js_split s sep))%nat -> Forall P sep.
Proof.
  intros H Hl. destruct sep as [|a sep']; [constructor|].
  unfold js_split in Hl. destruct (split_aux_match _ _ _ _ Hl) as [w [t [Hw Ht]]].
  destruct (prefixb_app _ _ Ht) as [t' Ht']. subst s t.
  apply Forall_app in H as [_ H]. apply Forall_app in H as [H _]. exact H.
Qed.

Lemma split_parts_chars (P : ascii -> Prop) cfg rec sep parts : forall result current out,
  Forall (Forall P) parts -> Forall (Forall P) result -> Forall P current ->
  (Forall P sep \/ (current = [] /\ (length parts <= 1)%nat) \/ parts = []) ->
  (forall part sub, In part parts -> rec part = Some sub -> Forall (Forall P) sub) ->
  split_parts cfg rec sep parts result current = Some out -> Forall (Forall P) out.
Proof.
  induction parts as [|part ps IH]; intros result current out Hps Hres Hcur Hsep Hrec Hout.
  - simpl in Hout. injection Hout as <-.
    destruct current; [exact Hres|]. apply Forall_app; split; [exact Hres|constructor; [exact Hcur|constructor]].
  - inversion Hps as [|? ? Hpart Hps']; subst.
    assert (Hres' : Forall (Forall P)
              (match current with [] => result | _ => result ++ [current] end)).
    { destruct current; [exact Hres|]. apply Forall_app; split; [exact Hres|constructor; [exact Hcur|constructor]]. }
    assert (Hpot : Forall P (match current with [] => part | _ => current ++ sep ++ part end)).
    { destruct current as [|c0 cur]; [exact Hpart|].
      destruct Hsep as [Hs|[[Hc _]|Hc]]; [|discriminate|discriminate].
      apply Forall_app; split; [exact Hcur|apply Forall_app; split; assumption]. }
    assert (Hsep' : forall cur' : str, Forall P sep \/ (cur' = [] /\ (length ps <= 1)%nat) \/ ps = []).
    { intros cur'. destruct Hsep as [Hs|[[_ Hl]|Hc]]; [left; exact Hs| |discriminate].
      right; right. destruct ps; [reflexivity|simpl in Hl; lia]. }
    assert (Hrec' : forall p sub, In p ps -> rec p = Some sub -> Forall (Forall P) sub).
    { intros p sub Hp. apply Hrec. right; exact Hp. }
    cbn [split_parts] in Hout.
    destruct (js_length _ <=? maxChunkSize cfg).
    + exact (IH _ _ _ Hps' Hres Hpot (Hsep' _) Hrec' Hout).
    + destruct (maxChunkSize cfg <? js_length part).
      * destruct (rec part) as [sub|] eqn:Hr; [|discriminate].
        refine (IH _ _ _ Hps' _ (Forall_nil _) (Hsep' _) Hrec' Hout).
        apply Forall_app; split; [exact Hres'|exact (Hrec part sub (or_introl eq_refl) Hr)].
      * exact (IH _ _ _ Hps' Hres' Hpart (Hsep' _) Hrec' Hout).
Qed.

Lemma hard_split_loop_chars (P : ascii -> Prop) cfg text :
  Forall P text -> forall fuel i r, hard_split_loop cfg text fuel i = Some r -> Forall (Forall P) r.
Proof.
  intros H fuel. induction fuel as [|f IH]; intros i r Hr; simpl in Hr; [discriminate|].
  destruct (i <? js_length text); [|injection Hr as <-; constructor].
  destruct (hard_split_loop cfg text f _) as [r'|] eqn:E; [|discriminate].
  injection Hr as <-. constructor; [apply Forall_slice, H|exact (IH _ _ E)].
Qed.

Lemma splitRecursively_chars (P : ascii -> Prop) cfg seps : forall text raws,
  Forall P text -> splitRecursively cfg text seps = Some raws -> Forall (Forall P) raws.
Proof.
  induction seps as [|sep rest IH]; intros text raws Ht Hr; simpl in Hr.
  - destruct (js_length text <=? maxChunkSize cfg).
    + injection Hr as <-. constructor; [exact Ht|constructor].
    + exact (hard_split_loop_chars P cfg text Ht _ _ _ Hr).
  - destruct (js_length text <=? maxChunkSize cfg).
    + injection Hr as <-. constructor; [exact Ht|constructor].
    + pose proof (js_split_chars P text sep Ht) as Hparts.
      refine (split_parts_chars P cfg _ sep _ [] [] raws Hparts (Forall_nil _) (Forall_nil _) _ _ Hr).
      * destruct (Nat.le_gt_cases 2 (length (js_split text sep))) as [Hl|Hl].
        -- left. exact (js_split_sep P text sep Ht Hl).
        -- right; left. split; [reflexivity|apply Nat.lt_succ_r, Hl].
      * intros part sub Hin Hsub. apply (IH part sub); [|exact Hsub].
        rewrite Forall_forall in Hparts. apply Hparts, Hin.
Qed.

Lemma build_chunks_trim cfg raws : forall prev i off,
  Forall (fun c => exists x, content c = trim x) (build_chunks cfg prev raws i off).
Proof.
  induction raws as [|raw rs IH]; intros prev i off; simpl; constructor; [|apply IH].
  eexists; reflexivity.
Qed.

Lemma build_chunks_blank cfg raws : forall prev i off,
  Forall (Forall blank) raws ->
  (forall p, prev = Some p -> Forall blank p) ->
  Forall (fun c => content c = []) (build_chunks cfg prev raws i off).
Proof.
  induction raws as [|raw rs IH]; intros prev i off Hr Hp; simpl; [constructor|].
  inversion Hr as [|? ? Hraw Hrs]; subst. constructor.
  - cbn [content]. apply trim_blank.
    destruct prev as [p|]; [|exact Hraw].
    destruct (0 <? chunkOverlap cfg); [|exact Hraw].
    apply Forall_app; split; [apply Forall_slice, Hp; reflexivity|exact Hraw].
  - apply IH; [exact Hrs|]. intros p Hpe; injection Hpe as <-; exact Hraw.
Qed.

Lemma filter_nonempty_nil (cs : list TextChunk) :
  Forall (fun c => content c = []) cs ->
  filter (fun c => 0 <? js_length (content c)) cs = [].
Proof. induction 1 as [|c cs Hc _ IH]; simpl; [reflexivity|]. rewrite Hc. exact IH. Qed.

(** A text that fits in one chunk is not split: one trimmed chunk, or none. *)
Lemma chunkText_short cfg text :
  js_length text <= maxChunkSize cfg ->
  chunkText text cfg =
    Some (match trim text with
          | [] => []
          | _ => [{| content := trim text; index := 0; startOffset := 0;
                     endOffset := js_length text; metadata := None |}]
          end).
Proof.
  intros H. unfold chunkText.
  assert (Hs : splitRecursively cfg text (separators cfg) = Some [text]).
  { destruct (separators cfg); simpl; apply Z.leb_le in H; rewrite H; reflexivity. }
  rewrite Hs. simpl. destruct (trim text) eqn:E; reflexivity.
Qed.

(** The merge loop of [mergeSmallChunks] never adds chunks, and removes one
    as soon as a short chunk has a successor. *)
Lemma merge_loop_length minSize rest : forall merged current,
  (length (merge_loop minSize rest merged current) <= length merged + 1 + length rest)%nat.
Proof.
  induction rest as [|chunk rest IH]; intros merged current; cbn [merge_loop].
  - rewrite length_app; simpl; lia.
  - destruct (js_length (content current) <? minSize).
    + eapply Nat.le_trans; [apply IH|simpl; lia].
    + eapply Nat.le_trans; [apply IH|rewrite length_app; simpl; lia].
Qed.

Lemma merge_loop_shrinks minSize rest : forall merged current,
  (short minSize current /\ rest <> []) \/
  (exists i, (S i < length rest)%nat /\ short minSize (nth i rest current)) ->
  (length (merge_loop minSize rest merged current) < length merged + 1 + length rest)%nat.
Proof.
  induction rest as [|chunk rest IH]; intros merged current Hex.
  - destruct Hex as [[_ H]|[i [Hi _]]]; [congruence|simpl in Hi; lia].
  - cbn [merge_loop length]. destruct (js_length (content current) <? minSize) eqn:E.
    + pose proof (merge_loop_length minSize rest merged
        (with_content current (content current ++ newline ++ newline ++ content chunk) (endOffset chunk))).
      lia.
    + apply Z.ltb_ge in E.
      assert (Hc : ~ short minSize current) by (unfold short; lia).
      assert (Hrec : (short minSize (with_index chunk (Z.of_nat (length (merged ++ [current])))) /\ rest <> []) \/
                     (exists i, (S i < length rest)%nat /\
                        short minSize (nth i rest (with_index chunk (Z.of_nat (length (merged ++ [current]))))))).
      { destruct Hex as [[Hs _]|[[|i] [Hi Hs]]]; [contradiction| |].
        - left. split; [exact Hs|]. destruct rest; [simpl in Hi; lia|discriminate].
        - right. exists i. split; [simpl in Hi; lia|].
          simpl in Hs. rewrite nth_indep with (d' := current); [exact Hs|simpl in Hi; lia]. }
      specialize (IH (merged ++ [current]) _ Hrec). rewrite length_app in IH at 2; cbn [length] in IH. lia.
Qed.

Lemma mergeSmallChunks_length chunks minSize :
  (length (mergeSmallChunks chunks minSize) <= length chunks)%nat.
Proof.
  destruct chunks as [|first rest]; simpl; [lia|].
  pose proof (merge_loop_length minSize rest [] first). simpl in H. lia.
Qed.

Lemma mergeSmallChunks_shrinks chunks minSize d :
  (exists i, (S i < length chunks)%nat /\ short minSize (nth i chunks d)) ->
  (length (mergeSmallChunks chunks minSize) < length chunks)%nat.
Proof.
  destruct chunks as [|first rest]; intros [i [Hi Hs]]; simpl in Hi; [lia|].
  simpl. apply (merge_loop_shrinks minSize rest [] first). destruct i as [|i].
  - left. split; [exact Hs|]. destruct rest; [simpl in Hi; lia|discriminate].
  - right. exists i. split; [lia|]. simpl in Hs.
    rewrite nth_indep with (d' := d); [exact Hs|lia].
Qed.

End ChunkingFacts.

(** ** Facts about token counting *)
Module TokenizationFacts.
Import Tokenization.

Lemma slice_from_zero (s : str) : slice_from s 0 = s.
Proof.
  unfold slice_from, slice, slice_index, js_length. cbv zeta.
  destruct s as [|c s]; [reflexivity|].
  replace (0 <? 0) with false by reflexivity.
  replace (Z.of_nat (length (c :: s)) <? 0) with false by (symmetry; apply Z.ltb_ge; lia).
  replace (Z.min 0 _) with 0 by lia.
  replace (Z.min (Z.of_nat (length (c :: s))) _) with (Z.of_nat (length (c :: s))) by lia.
  replace (0 <? Z.of_nat (length (c :: s))) with true by (symmetry; apply Z.ltb_lt; simpl; lia).
  rewrite Z.sub_0_r, Nat2Z.id. simpl skipn. apply firstn_all.
Qed.

(** On a text of at most ten code units the binary search does not run:
    an over-budget text truncates to the empty string. *)
Lemma truncate_short_text text maxTokens :
  0 < js_length text <= 10 -> maxTokens < count text -> truncate text maxTokens = Some [].
Proof.
  intros Hl Hc. unfold truncate.
  replace (count text <=? maxTokens) with false by (symmetry; apply Z.leb_gt; exact Hc).
  destruct (length text) as [|f] eqn:E; [unfold js_length in Hl; rewrite E in Hl; simpl in Hl; lia|].
  simpl search_loop.
  replace (10 <? js_length text - 0) with false by (symmetry; apply Z.ltb_ge; lia).
  assert (H0 : slice text 0 0 = []).
  { unfold slice. cbv zeta. rewrite Z.ltb_irrefl. reflexivity. }
  rewrite H0. reflexivity.
Qed.

End TokenizationFacts.

(** ** Facts about lookups, [delete], [import] and [addBatch] *)
Module StoreOpsFacts.
Import VectorStore VectorStoreSpec VectorStoreFacts VectorStoreOps.

Lemma get_map_set k k' v (m : store) :
  get k (map_set k' v m) = if str_eqb k k' then Some v else get k m.
Proof.
  unfold map_set. destruct (str_eqb k k') eqn:Ekk.
  - apply str_eqb_true in Ekk; subst k'.
    destruct (map_has k m) eqn:Eh.
    + induction m as [|[k0 v0] m IH]; simpl in *; [discriminate|].
      unfold map_has in Eh; simpl in Eh.
      destruct (str_eqb k k0) eqn:E0; simpl; rewrite ?E0; [reflexivity|].
      apply IH; exact Eh.
    + induction m as [|[k0 v0] m IH]; simpl; [rewrite str_eqb_refl; reflexivity|].
      unfold map_has in Eh; simpl in Eh; apply orb_false_iff in Eh as [E0 Eh].
      rewrite E0; exact (IH Eh).
  - destruct (map_has k' m).
    + induction m as [|[k0 v0] m IH]; simpl; [reflexivity|].
      destruct (str_eqb k' k0) eqn:E0; simpl.
      * apply str_eqb_true in E0; subst k0; rewrite Ekk; exact IH.
      * destruct (str_eqb k k0); [reflexivity|exact IH].
    + induction m as [|[k0 v0] m IH]; simpl; [rewrite Ekk; reflexivity|].
      destruct (str_eqb k k0); [reflexivity|exact IH].
Qed.

Lemma get_map_delete k k' (m : store) :
  get k (map_delete k' m) = if str_eqb k k' then None else get k m.
Proof.
  unfold map_delete; induction m as [|[k0 v0] m IH]; simpl.
  - destruct (str_eqb k k'); reflexivity.
  - destruct (str_eqb k' k0) eqn:E0; simpl.
    + apply str_eqb_true in E0; subst k0. rewrite IH.
      destruct (str_eqb k k'); reflexivity.
    + destruct (str_eqb k k0) eqn:E1.
      * apply str_eqb_true in E1; subst k0.
        destruct (str_eqb k k') eqn:E2; [|reflexivity].
        apply str_eqb_true in E2; subst k'; rewrite str_eqb_refl in E0; discriminate.
      * exact IH.
Qed.

Lemma get_some_has k (m : store) : map_has k m = match get k m with Some _ => true | None => false end.
Proof.
  unfold map_has; induction m as [|[k0 v0] m IH]; simpl; [reflexivity|].
  destruct (str_eqb k k0); [reflexivity|exact IH].
Qed.

Lemma str_eqb_sym a b : str_eqb a b = str_eqb b a.
Proof.
  destruct (str_eqb a b) eqn:E; symmetry.
  - apply str_eqb_true in E; subst; apply str_eqb_refl.
  - destruct (str_eqb b a) eqn:E'; [|reflexivity].
    apply str_eqb_true in E'; subst; rewrite str_eqb_refl in E; discriminate.
Qed.

Lemma get_values_wf v (m : store) :
  well_formed m -> In v (values m) -> get (id v) m = Some v.
Proof.
  intros [Hnd Hk] Hin; induction m as [|[k0 v0] m IH]; simpl in *; [contradiction|].
  simpl in Hnd; apply NoDup_cons_iff in Hnd as [Hk0 Hnd'].
  apply Forall_cons_iff in Hk as [Hkv Hk']; simpl in Hkv.
  destruct Hin as [<- | Hin].
  - rewrite <- Hkv, str_eqb_refl; reflexivity.
  - destruct (str_eqb (id v) k0) eqn:E.
    + apply str_eqb_true in E. exfalso; apply Hk0.
      unfold values in Hin; apply in_map_iff in Hin as [[k1 v1] [Ev Hin]]; simpl in Ev; subst v1.
      rewrite Forall_forall in Hk'; specialize (Hk' _ Hin); simpl in Hk'.
      rewrite <- E. apply in_map_iff; exists (k1, v); split; [exact Hk'|exact Hin].
    + apply IH; [exact Hnd'|exact Hk'|exact Hin].
Qed.

Lemma insert_created_perm x (l : list VectorDocument) : Permutation (x :: l) (insert_created x l).
Proof.
  induction l as [|y l IH]; simpl; [reflexivity|].
  destruct (createdAt x <=? createdAt y); [reflexivity|].
  rewrite <- IH; apply perm_swap.
Qed.

Lemma sort_created_perm (l : list VectorDocument) : Permutation l (sort_created l).
Proof.
  induction l as [|x l IH]; simpl; [reflexivity|].
  rewrite <- insert_created_perm, <- IH; reflexivity.
Qed.

Lemma length_filter_lt {A} (f : A -> bool) (l : list A) x :
  In x l -> f x = false -> (length (filter f l) < length l)%nat.
Proof.
  induction l as [|y l IH]; simpl; intros Hin Hf; [contradiction|].
  pose proof (filter_length_le f l).
  destruct Hin as [<- | Hin]; [rewrite Hf; lia|].
  destruct (f y); simpl; specialize (IH Hin Hf); lia.
Qed.

Lemma size_map_set k v (m : store) :
  size (map_set k v m) = if map_has k m then size m else S (size m).
Proof.
  unfold size, map_set; destruct (map_has k m).
  - apply length_map.
  - rewrite length_app; simpl; lia.
Qed.

(** The map [add] writes into, before the [set]. *)
Lemma add_ok cfg now doc (m m' : store) :
  add cfg now doc m = Ok m' ->
  exists m1, m' = map_set (nd_id doc) (stamp doc now) m1 /\
    ((at_capacity cfg m = false \/ sort_created (values m) = []) /\ m1 = m
     \/ at_capacity cfg m = true /\ exists oldest rest,
          sort_created (values m) = oldest :: rest /\ m1 = map_delete (id oldest) m).
Proof.
  unfold add; destruct (negb _); [discriminate|]; intros H; injection H as <-.
  destruct (at_capacity cfg m) eqn:Ec.
  - destruct (sort_created (values m)) as [|oldest rest] eqn:Es.
    + eexists; split; [reflexivity|]. left; split; [right; reflexivity|reflexivity].
    + eexists; split; [reflexivity|]. right; split; [reflexivity|].
      exists oldest, rest; split; reflexivity.
  - eexists; split; [reflexivity|]. left; split; [left; reflexivity|reflexivity].
Qed.

Lemma find_app {A} (f : A -> bool) (l r : list A) :
  find f (l ++ r) = match find f l with Some x => Some x | None => find f r end.
Proof. induction l as [|x l IH]; simpl; [reflexivity|]. destruct (f x); [reflexivity|exact IH]. Qed.

End StoreOpsFacts.


(** ** More facts about search and retrieval *)
Module SearchRetrievalFacts.
Import VectorStore Search SearchSpec SearchFacts Retrieval RetrievalSpec.

Lemma In_firstn_of {A} n (l : list A) x : In x (firstn n l) -> In x l.
Proof. intros H; rewrite <- (firstn_skipn n l); apply in_or_app; left; exact H. Qed.

Lemma In_skipn_of {A} n (l : list A) x : In x (skipn n l) -> In x l.
Proof. intros H; rewrite <- (firstn_skipn n l); apply in_or_app; right; exact H. Qed.

Lemma In_slice {A} (l : list A) i j x : In x (slice l i j) -> In x l.
Proof.
  unfold slice; cbv zeta.
  destruct (_ <? _); [|intros []].
  intros H; apply In_firstn_of, In_skipn_of in H; exact H.
Qed.

Lemma score_doc_document js_sqrt cfg q d r :
  score_doc js_sqrt cfg q d = Ok r -> document r = d.
Proof.
  unfold score_doc.
  destruct (similarityMetric cfg);
    [destruct (cosineSimilarity _ _ _)|destruct (euclideanDistance _ _ _)];
    intros H; try discriminate; injection H as <-; reflexivity.
Qed.

(** Every result [score_all] returns is the scoring of its document. *)
Lemma score_all_sound js_sqrt cfg q filter (docs : list VectorDocument) rs :
  score_all js_sqrt cfg q filter docs = Ok rs ->
  Forall (fun r => score_doc js_sqrt cfg q (document r) = Ok r) rs.
Proof.
  revert rs; induction docs as [|d docs IH]; intros rs H; simpl in H.
  - injection H as <-; constructor.
  - destruct (negb (passes filter d)); [apply IH; exact H|].
    destruct (score_doc js_sqrt cfg q d) as [r|e] eqn:Ed; [|discriminate].
    destruct (score_all js_sqrt cfg q filter docs) as [rs'|e] eqn:Er; [|discriminate].
    injection H as <-; constructor; [|apply IH; reflexivity].
    rewrite (score_doc_document _ _ _ _ _ Ed); exact Ed.
Qed.

(** What a successful [search] returns: at most [topK] results (for
    [topK >= 0]), sorted, each the scoring of its document. *)
Lemma search_ok js_sqrt cfg q topK filter (m : store) rs :
  search js_sqrt cfg q topK filter m = Ok rs -> 0 <= topK ->
  Sorted desc rs /\ (length rs <= Z.to_nat topK)%nat /\
  Forall (fun r => score_doc js_sqrt cfg q (document r) = Ok r) rs.
Proof.
  unfold search; intros H Hk.
  destruct (negb _); [discriminate|].
  destruct (score_all js_sqrt cfg q filter (values m)) as [all|e] eqn:Ea; [|discriminate].
  injection H as <-; rewrite slice_0_nonneg by exact Hk.
  split; [apply Sorted_firstn, sort_score_sorted|split; [rewrite length_firstn; lia|]].
  apply score_all_sound in Ea.
  apply Forall_forall; intros r Hr; apply In_firstn_of in Hr.
  apply (Permutation_in _ (Permutation_sym (sort_score_perm all))) in Hr.
  rewrite Forall_forall in Ea; apply Ea, Hr.
Qed.

Lemma search_results_in js_sqrt cfg q topK filter (m : store) rs :
  search js_sqrt cfg q topK filter m = Ok rs ->
  Forall (fun r => score_doc js_sqrt cfg q (document r) = Ok r) rs.
Proof.
  unfold search; intros H.
  destruct (negb _); [discriminate|].
  destruct (score_all js_sqrt cfg q filter (values m)) as [all|e] eqn:Ea; [|discriminate].
  injection H as <-.
  apply score_all_sound in Ea.
  apply Forall_forall; intros r Hr; apply In_slice in Hr.
  apply (Permutation_in _ (Permutation_sym (sort_score_perm all))) in Hr.
  rewrite Forall_forall in Ea; apply Ea, Hr.
Qed.

(** Every result [score_all] returns scores one of the scanned documents. *)
Lemma score_all_in js_sqrt cfg q filter (docs : list VectorDocument) rs :
  score_all js_sqrt cfg q filter docs = Ok rs -> Forall (fun r => In (document r) docs) rs.
Proof.
  revert rs; induction docs as [|d docs IH]; intros rs H; simpl in H.
  - injection H as <-; constructor.
  - destruct (negb (passes filter d)).
    + eapply Forall_impl; [|apply IH, H]; intros r Hr; right; exact Hr.
    + destruct (score_doc js_sqrt cfg q d) as [r|e] eqn:Ed; [|discriminate].
      destruct (score_all js_sqrt cfg q filter docs) as [rs'|e] eqn:Er; [|discriminate].
      injection H as <-; constructor.
      * rewrite (score_doc_document _ _ _ _ _ Ed); left; reflexivity.
      * eapply Forall_impl; [|apply IH; reflexivity]; intros r' Hr; right; exact Hr.
Qed.

(** Every result of a successful [search] is a document of the store. *)
Lemma search_docs_in js_sqrt cfg q topK filter (m : store) rs :
  search js_sqrt cfg q topK filter m = Ok rs -> Forall (fun r => In (document r) (values m)) rs.
Proof.
  unfold search; intros H.
  destruct (negb _); [discriminate|].
  destruct (score_all js_sqrt cfg q filter (values m)) as [all|e] eqn:Ea; [|discriminate].
  injection H as <-.
  apply score_all_in in Ea.
  apply Forall_forall; intros r Hr; apply In_slice in Hr.
  apply (Permutation_in _ (Permutation_sym (sort_score_perm all))) in Hr.
  rewrite Forall_forall in Ea; apply Ea, Hr.
Qed.

Lemma join_length (sep : str) (ps : list str) :
  ps <> [] -> js_length (join sep ps) = total_length ps + js_length sep * (Z.of_nat (length ps) - 1).
Proof.
  induction ps as [|p ps IH]; intros H; [contradiction|].
  destruct ps as [|p' ps].
  - simpl; unfold js_length; lia.
  - change (join sep (p :: p' :: ps)) with (p ++ sep ++ join sep (p' :: ps)).
    unfold js_length in *; rewrite !length_app.
    specialize (IH ltac:(discriminate)).
    cbn [total_length fold_right length] in *. unfold js_length in *. lia.
Qed.

(** [build_parts] from a running length [c]: the formatted results, as long
    as the running total stays within [maxContextLength]. *)
Lemma build_parts_prefix (rs : list SearchResult) (cfg : RetrievalConfig) : forall c,
  exists n, build_parts rs cfg c = firstn n (map (fun r => formatDocument r cfg) rs) /\
    (build_parts rs cfg c <> [] -> c + total_length (build_parts rs cfg c) <= maxContextLength cfg) /\
    (forall r, nth_error rs n = Some r ->
       maxContextLength cfg < c + total_length (build_parts rs cfg c) + js_length (formatDocument r cfg)).
Proof.
  induction rs as [|r rs IH]; intros c; simpl.
  - exists 0%nat; split; [reflexivity|split; [intros []; reflexivity|]].
    intros r H; discriminate.
  - destruct (maxContextLength cfg <? c + js_length (formatDocument r cfg)) eqn:E.
    + exists 0%nat; split; [reflexivity|split; [intros []; reflexivity|]].
      intros r' H; injection H as <-; apply Z.ltb_lt in E; simpl; lia.
    + apply Z.ltb_ge in E.
      destruct (IH (c + js_length (formatDocument r cfg))) as [n [Hn [Hfit Hnext]]].
      exists (S n); split; [simpl; rewrite Hn; reflexivity|split].
      * intros _; simpl.
        destruct (build_parts rs cfg (c + js_length (formatDocument r cfg))) eqn:Eb.
        -- simpl; lia.
        -- specialize (Hfit ltac:(discriminate)); lia.
      * intros r' H; simpl in H |- *; specialize (Hnext r' H); lia.
Qed.

End SearchRetrievalFacts.


(** ** Facts about the character-based counter and about truncation *)
Module TokenCounterFacts.
Import ChunkingFacts SearchFacts TokenizationFacts.

Lemma prefixb_length p s : prefixb p s = true -> (length p <= length s)%nat.
Proof. intros H; destruct (prefixb_app p s H) as [t ->]; rewrite length_app; lia. Qed.

Lemma last_index_aux_bounds pat s : pat <> [] -> forall i best,
  last_index_aux pat s i best = best \/
  (i <= last_index_aux pat s i best /\
   last_index_aux pat s i best + Z.of_nat (length pat) <= i + Z.of_nat (length s)).
Proof.
  intros Hp; induction s as [|c s IH]; intros i best; simpl.
  - destruct pat; [contradiction|left; reflexivity].
  - destruct (IH (i + 1) (if prefixb pat (c :: s) then i else best)) as [E|E].
    + rewrite E. destruct (prefixb pat (c :: s)) eqn:Ep; [right|left; reflexivity].
      apply prefixb_length in Ep; simpl in Ep; lia.
    + right; lia.
Qed.

Lemma lastIndexOf_bounds s pat : pat <> [] ->
  lastIndexOf s pat = -1 \/
  (0 <= lastIndexOf s pat /\ lastIndexOf s pat + Z.of_nat (length pat) <= Z.of_nat (length s)).
Proof. intros Hp; unfold lastIndexOf; destruct (last_index_aux_bounds pat s Hp 0 (-1)); lia. Qed.

Lemma lastIndexOf_nil pat : pat <> [] -> lastIndexOf [] pat = -1.
Proof. intros Hp; destruct pat; [contradiction|reflexivity]. Qed.

Lemma slice_length_all {A} (s : list A) i j : (length (slice s i j) <= length s)%nat.
Proof.
  unfold slice; cbv zeta; destruct (_ <? _); simpl; [|lia].
  rewrite length_firstn, length_skipn; lia.
Qed.

Lemma slice_0_length {A} (s : list A) k :
  0 <= k <= Z.of_nat (length s) -> length (slice s 0 k) = Z.to_nat k.
Proof. intros Hk; rewrite slice_0_nonneg by lia; rewrite length_firstn; lia. Qed.

Lemma slice_0_prefix {A} (s : list A) k :
  0 <= k -> exists rest, s = slice s 0 k ++ rest /\ Z.of_nat (length (slice s 0 k)) <= k.
Proof.
  intros Hk; rewrite slice_0_nonneg by exact Hk.
  exists (skipn (Z.to_nat k) s); split; [symmetry; apply firstn_skipn|].
  rewrite length_firstn; lia.
Qed.

Lemma slice_from_length (s : str) k :
  0 <= k <= js_length s -> js_length (slice_from s k) = js_length s - k.
Proof.
  intros Hk; unfold slice_from, slice, slice_index, js_length in *; cbv zeta.
  destruct (k <? 0) eqn:E1; [apply Z.ltb_lt in E1; lia|].
  destruct (Z.of_nat (length s) <? 0) eqn:E2; [apply Z.ltb_lt in E2; lia|].
  rewrite (Z.min_l k) by lia; rewrite Z.min_id.
  destruct (k <? Z.of_nat (length s)) eqn:E3.
  - apply Z.ltb_lt in E3; rewrite length_firstn, length_skipn; lia.
  - apply Z.ltb_ge in E3; simpl; lia.
Qed.

Lemma drop_ws_idem s : drop_ws (drop_ws s) = drop_ws s.
Proof. induction s as [|c s IH]; simpl; [reflexivity|]. destruct (is_ws c) eqn:E; [exact IH|simpl; rewrite E; reflexivity]. Qed.

Lemma drop_ws_trim s : drop_ws (trim s) = trim s.
Proof.
  destruct (trim s) as [|a r] eqn:E; [reflexivity|].
  simpl; rewrite (trim_first s a r E); reflexivity.
Qed.

Lemma trim_idem s : trim (trim s) = trim s.
Proof.
  unfold trim at 1; rewrite drop_ws_trim.
  unfold trim; rewrite rev_involutive, drop_ws_idem; reflexivity.
Qed.

Section WithRate.
Variable cpt : Z.

(** The split point lies in [1, maxChars] when the remaining text is longer
    than [maxChars >= 1]. *)
Lemma split_point_bounds (rem : str) (mc : Z) :
  1 <= mc < js_length rem ->
  1 <= SimpleTokenCounter.split_point rem mc <= mc.
Proof.
  intros Hm; unfold SimpleTokenCounter.split_point; cbv zeta.
  assert (Ht : Z.of_nat (length (slice rem 0 mc)) = mc)
    by (rewrite slice_0_length; unfold js_length in Hm; lia).
  destruct (lastIndexOf_bounds (slice rem 0 mc) (lit ". ") ltac:(discriminate)) as [E|E];
    simpl length in E.
  - rewrite E; replace (mc <? 2 * -1) with false by (symmetry; apply Z.ltb_ge; lia).
    destruct (lastIndexOf_bounds (slice rem 0 mc) (lit " ") ltac:(discriminate)) as [E'|E'];
      simpl length in E'.
    + rewrite E'; replace (7 * mc <? 10 * -1) with false by (symmetry; apply Z.ltb_ge; lia); lia.
    + destruct (7 * mc <? 10 * _) eqn:E2; [apply Z.ltb_lt in E2|]; lia.
  - destruct (mc <? 2 * _) eqn:E1; [apply Z.ltb_lt in E1; lia|].
    destruct (lastIndexOf_bounds (slice rem 0 mc) (lit " ") ltac:(discriminate)) as [E'|E'];
      simpl length in E'.
    + rewrite E'; replace (7 * mc <? 10 * -1) with false by (symmetry; apply Z.ltb_ge; lia); lia.
    + destruct (7 * mc <? 10 * _) eqn:E2; [apply Z.ltb_lt in E2|]; lia.
Qed.

Lemma split_loop_bounded (mc : Z) : 1 <= mc ->
  forall fuel rem parts, (length rem < fuel)%nat ->
  exists out, SimpleTokenCounter.split_loop fuel rem mc parts = Some (parts ++ out) /\
    Forall (fun p => js_length p <= mc) out.
Proof.
  intros Hmc fuel; induction fuel as [|f IH]; intros rem parts Hf; [lia|].
  simpl.
  destruct (0 <? js_length rem) eqn:E0.
  - destruct (js_length rem <=? mc) eqn:E1.
    + exists [rem]; split; [reflexivity|constructor; [apply Z.leb_le, E1|constructor]].
    + apply Z.leb_gt in E1.
      pose proof (split_point_bounds rem mc (conj Hmc E1)) as Hsp.
      set (sp := SimpleTokenCounter.split_point rem mc) in *.
      destruct (IH (trim (slice_from rem sp)) (parts ++ [trim (slice rem 0 sp)])) as [out [Ho Hout]].
      * pose proof (trim_length (slice_from rem sp)).
        pose proof (slice_from_length rem sp ltac:(lia)).
        unfold js_length in *; lia.
      * rewrite Ho, <- app_assoc; exists (trim (slice rem 0 sp) :: out); split; [reflexivity|].
        constructor; [|exact Hout].
        pose proof (trim_length (slice rem 0 sp)).
        pose proof (slice_length_le rem 0 sp ltac:(lia) ltac:(lia)) as Hl; rewrite Z.add_0_l in Hl.
        unfold js_length in *; lia.
  - exists []; rewrite app_nil_r; split; [reflexivity|constructor].
Qed.

Lemma split_loop_zero (rem : str) :
  trim rem <> [] -> forall fuel parts, SimpleTokenCounter.split_loop fuel rem 0 parts = None.
Proof.
  intros Hne fuel; revert rem Hne; induction fuel as [|f IH]; intros rem Hne parts; [reflexivity|].
  simpl.
  assert (Hl : 0 < js_length rem).
  { pose proof (trim_length rem); destruct (trim rem); [contradiction|].
    unfold js_length; simpl in *; lia. }
  replace (0 <? js_length rem) with true by (symmetry; apply Z.ltb_lt, Hl).
  replace (js_length rem <=? 0) with false by (symmetry; apply Z.leb_gt, Hl).
  assert (Hsp : SimpleTokenCounter.split_point rem 0 = 0).
  { unfold SimpleTokenCounter.split_point; cbv zeta.
    assert (H0 : slice rem 0 0 = []) by (unfold slice; cbv zeta; rewrite Z.ltb_irrefl; reflexivity).
    rewrite H0, !lastIndexOf_nil by discriminate; reflexivity. }
  rewrite Hsp, slice_from_zero.
  apply IH; rewrite trim_idem; exact Hne.
Qed.

End WithRate.

(** The binary search of [GPTTokenCounter.truncate] exits before its fuel
    runs out when the fuel is at least [max 1 (high - low)], with [low]
    between its bounds. *)
Lemma search_loop_exits text maxTokens : forall fuel low high,
  0 <= low <= high -> high - low <= Z.of_nat fuel -> (0 < fuel)%nat ->
  exists r, Tokenization.search_loop text maxTokens fuel low high = Some r /\ low <= r <= high.
Proof.
  intros fuel; induction fuel as [|f IH]; intros low high Hb Hf Hpos; [lia|]; simpl.
  destruct (10 <? high - low) eqn:E; [apply Z.ltb_lt in E|exists low; split; [reflexivity|lia]].
  assert (Hm2 : 2 * ((low + high) / 2) <= low + high) by (apply Z.mul_div_le; lia).
  assert (Hm3 : low + high - 1 <= 2 * ((low + high) / 2)).
  { pose proof (Z.mod_pos_bound (low + high) 2 ltac:(lia)).
    pose proof (Z.div_mod (low + high) 2 ltac:(lia)). lia. }
  destruct (Tokenization.count _ <=? maxTokens).
  - destruct (IH ((low + high) / 2) high) as [r [Hr Hb']]; [lia|lia|lia|].
    exists r; split; [exact Hr|lia].
  - destruct (IH low ((low + high) / 2)) as [r [Hr Hb']]; [lia|lia|lia|].
    exists r; split; [exact Hr|lia].
Qed.

End TokenCounterFacts.


(** ** Facts about the local embedding provider *)
Module EmbeddingFacts.
Import Tokenization LocalEmbeddings EmbeddingSpec.

Lemma to_int32_congr x y : x mod 2 ^ 32 = y mod 2 ^ 32 -> to_int32 x = to_int32 y.
Proof. intros H; unfold to_int32; rewrite (Zplus_mod x), (Zplus_mod y), H; reflexivity. Qed.

Lemma to_int32_mod x : to_int32 x mod 2 ^ 32 = x mod 2 ^ 32.
Proof.
  unfold to_int32.
  rewrite Zminus_mod, Z.mod_mod by lia.
  rewrite <- Zminus_mod, Z.add_simpl_r; reflexivity.
Qed.

Lemma to_int32_range x : - 2 ^ 31 <= to_int32 x < 2 ^ 31.
Proof. unfold to_int32; pose proof (Z.mod_pos_bound (x + 2 ^ 31) (2 ^ 32) ltac:(lia)); lia. Qed.

Lemma to_int32_shift y : exists k, to_int32 y = y + 2 ^ 32 * k.
Proof.
  exists (- ((y + 2 ^ 31) / 2 ^ 32)); unfold to_int32.
  rewrite Z.mod_eq by lia; lia.
Qed.

Lemma hash_step_eq h c : hash_step h c = to_int32 (31 * h + Z.of_nat (nat_of_ascii c)).
Proof.
  unfold hash_step; cbv zeta; rewrite Z.land_diag.
  apply to_int32_congr.
  rewrite Z.shiftl_mul_pow2 by lia.
  destruct (to_int32_shift h) as [k0 Hk0]; rewrite Hk0.
  destruct (to_int32_shift ((h + 2 ^ 32 * k0) * 2 ^ 5)) as [k1 Hk1]; rewrite Hk1.
  replace ((h + 2 ^ 32 * k0) * 2 ^ 5 + 2 ^ 32 * k1 - h + Z.of_nat (nat_of_ascii c))
    with (31 * h + Z.of_nat (nat_of_ascii c) + (32 * k0 + k1) * 2 ^ 32) by ring.
  apply Z_mod_plus_full.
Qed.

Lemma poly_fold_congr s : forall a b, a mod 2 ^ 32 = b mod 2 ^ 32 ->
  fold_left (fun h c => 31 * h + Z.of_nat (nat_of_ascii c)) s a mod 2 ^ 32 =
  fold_left (fun h c => 31 * h + Z.of_nat (nat_of_ascii c)) s b mod 2 ^ 32.
Proof.
  induction s as [|c s IH]; intros a b H; simpl; [exact H|].
  apply IH. rewrite (Zplus_mod (31 * a)), (Zplus_mod (31 * b)), (Zmult_mod 31 a), (Zmult_mod 31 b), H.
  reflexivity.
Qed.

Lemma hash_fold_eq s : forall h,
  fold_left hash_step s (to_int32 h) =
  to_int32 (fold_left (fun h c => 31 * h + Z.of_nat (nat_of_ascii c)) s h).
Proof.
  induction s as [|c s IH]; intros h; simpl; [reflexivity|].
  rewrite hash_step_eq, IH.
  apply to_int32_congr, poly_fold_congr.
  rewrite (Zplus_mod (31 * to_int32 h)), (Zplus_mod (31 * h)).
  rewrite (Zmult_mod 31 (to_int32 h)), (Zmult_mod 31 h), to_int32_mod; reflexivity.
Qed.

Lemma hashString_poly s : hashString s = to_int32 (poly_hash s).
Proof. unfold hashString, poly_hash; rewrite <- hash_fold_eq; reflexivity. Qed.

Lemma bucket_range dims t : 0 < dims -> 0 <= bucket dims t < dims.
Proof. intros H; unfold bucket; apply Z.rem_bound_pos; lia. Qed.

Lemma bump_length i l : length (bump i l) = length l.
Proof. revert i; induction l as [|x l IH]; intros [|i]; simpl; auto. Qed.

Lemma bump_sum i l : (i < length l)%nat -> (Qsum (bump i l) == Qsum l + 1)%Q.
Proof.
  revert i; induction l as [|x l IH]; intros [|i] H; simpl in *; try lia.
  - unfold Qsum; simpl; ring.
  - unfold Qsum in *; simpl; rewrite IH by lia; ring.
Qed.


Lemma bump_counts i l : Forall is_count l -> Forall is_count (bump i l).
Proof.
  revert i; induction l as [|x l IH]; intros [|i] H; simpl; auto.
  - inversion H as [|? ? [k [Hk Hx]] Hl]; subst; constructor; [|exact Hl].
    exists (k + 1); split; [lia|]. rewrite Hx, inject_Z_plus; reflexivity.
  - inversion H; subst; constructor; [assumption|apply IH; assumption].
Qed.

Lemma Qsum_repeat_zero n : (Qsum (repeat 0%Q n) == 0)%Q.
Proof. induction n as [|n IH]; [reflexivity|unfold Qsum in *; cbn [repeat fold_right]; rewrite IH; ring]. Qed.

Lemma term_counts_props dims tokens : 0 < dims ->
  length (term_counts dims tokens) = Z.to_nat dims /\
  (Qsum (term_counts dims tokens) == inject_Z (Z.of_nat (length tokens)))%Q /\
  Forall is_count (term_counts dims tokens).
Proof.
  intros Hd; unfold term_counts.
  assert (H : forall ts e, length e = Z.to_nat dims -> Forall is_count e ->
    length (fold_left (fun e t => bump (Z.to_nat (bucket dims t)) e) ts e) = Z.to_nat dims /\
    (Qsum (fold_left (fun e t => bump (Z.to_nat (bucket dims t)) e) ts e)
       == Qsum e + inject_Z (Z.of_nat (length ts)))%Q /\
    Forall is_count (fold_left (fun e t => bump (Z.to_nat (bucket dims t)) e) ts e)).
  { induction ts as [|t ts IH]; intros e Hl Hc; simpl.
    - split; [exact Hl|split; [ring|exact Hc]].
    - destruct (IH (bump (Z.to_nat (bucket dims t)) e)) as [H1 [H2 H3]].
      + rewrite bump_length; exact Hl.
      + apply bump_counts, Hc.
      + split; [exact H1|split; [|exact H3]].
        rewrite H2, bump_sum by (pose proof (bucket_range dims t Hd); lia).
        change (length (t :: ts)) with (S (length ts)).
        rewrite Zpos_P_of_succ_nat, <- Z.add_1_l, inject_Z_plus; ring. }
  destruct (H tokens (repeat 0%Q (Z.to_nat dims))) as [H1 [H2 H3]].
  - apply repeat_length.
  - apply Forall_forall; intros v Hv; apply repeat_spec in Hv; subst v; exists 0; split; [lia|reflexivity].
  - split; [exact H1|split; [|exact H3]].
    rewrite H2, Qsum_repeat_zero; ring.
Qed.

Lemma sum_squares_acc e : forall a,
  (fold_left (fun sum v => sum + v * v) e a == a + sum_squares e)%Q.
Proof.
  unfold sum_squares; induction e as [|v e IH]; intros a; simpl; [ring|].
  rewrite (IH (a + v * v)%Q), (IH (0 + v * v)%Q); ring.
Qed.

Lemma sum_squares_ge_sum e : Forall is_count e -> (Qsum e <= sum_squares e)%Q.
Proof.
  induction e as [|v e IH]; intros H; [apply Qle_refl|].
  inversion H as [|? ? [k [Hk Hv]] He]; subst.
  unfold sum_squares; simpl; rewrite sum_squares_acc; fold (sum_squares e).
  unfold Qsum in *; simpl.
  pose proof (IH He) as Hle.
  assert (Hkk : (v <= v * v)%Q).
  { rewrite Hv, <- inject_Z_mult; rewrite <- Zle_Qle; nia. }
  lra.
Qed.

Lemma sum_squares_div e m : ~ (m == 0)%Q ->
  (sum_squares (map (fun v => v / m) e) == sum_squares e / (m * m))%Q.
Proof.
  intros Hm; induction e as [|v e IH]; [unfold sum_squares; simpl; field; exact Hm|].
  unfold sum_squares; simpl; rewrite !sum_squares_acc; fold (sum_squares e).
  fold (sum_squares (map (fun v => (v / m)%Q) e)); rewrite IH; field; exact Hm.
Qed.

Lemma count_nonneg v : is_count v -> (0 <= v)%Q.
Proof.
  intros [k [Hk Hv]]; rewrite Hv; change 0%Q with (inject_Z 0); rewrite <- Zle_Qle; exact Hk.
Qed.

Lemma Qsum_nonneg e : Forall is_count e -> (0 <= Qsum e)%Q.
Proof.
  induction e as [|v e IH]; intros H; [apply Qle_refl|].
  inversion H as [|? ? Hv He]; subst; unfold Qsum in *; simpl.
  pose proof (count_nonneg v Hv); pose proof (IH He); lra.
Qed.

Lemma Qsum_zero e : Forall is_count e -> (Qsum e == 0)%Q -> Forall (fun v => v == 0)%Q e.
Proof.
  induction e as [|v e IH]; intros H Hs; constructor;
    inversion H as [|? ? Hv He]; subst; unfold Qsum in *; simpl in Hs;
    pose proof (count_nonneg v Hv); pose proof (Qsum_nonneg e He); unfold Qsum in *.
  - lra.
  - apply IH; [exact He|lra].
Qed.

Lemma split_ws_chars (P : ascii -> Prop) s : forall acc b,
  Forall P acc -> Forall (fun c => is_ws c = false -> P c) s ->
  Forall (Forall P) (split_ws s acc b).
Proof.
  induction s as [|c s IH]; intros acc b Ha Hs; simpl.
  - constructor; [apply Forall_rev, Ha|constructor].
  - inversion Hs as [|? ? Hc Hs']; subst.
    destruct (is_ws c) eqn:E.
    + destruct b; [apply IH; assumption|].
      constructor; [apply Forall_rev, Ha|apply IH; [constructor|exact Hs']].
    + apply IH; [constructor; [apply Hc; reflexivity|exact Ha]|exact Hs'].
Qed.

Lemma lower_word_token_char c : is_word (lower_unit c) = true -> token_char (lower_unit c) = true.
Proof.
  destruct c as [[|] [|] [|] [|] [|] [|] [|] [|]]; intros H; vm_compute in H |- *;
    first [reflexivity|discriminate].
Qed.

Lemma tokenize_chars text :
  Forall (Forall (fun c => token_char c = true)) (words (replace_non_word (toLowerCase text))).
Proof.
  apply split_ws_chars; [constructor|].
  unfold replace_non_word, toLowerCase; rewrite map_map.
  apply Forall_forall; intros c Hc; apply in_map_iff in Hc as [c0 [<- _]].
  destruct (is_word (lower_unit c0)) eqn:Ew; simpl.
  - intros _; apply lower_word_token_char, Ew.
  - destruct (is_ws (lower_unit c0)) eqn:Es; [intros H; congruence|].
    intros H; vm_compute in H; discriminate.
Qed.

End EmbeddingFacts.


(** ** Facts about sentence chunking *)
Module SentenceFacts.
Import Chunking Sentences SentenceSpec.

Lemma sentence_matches_decomp s : forall (acc : str) (b : bool),
  (if b then exists c acc', acc = c :: acc' /\ is_terminator c = true else no_terminator acc) ->
  exists rest, concat (sentence_matches s acc b) ++ rest = rev acc ++ s /\ no_terminator rest /\
    Forall ends_with_terminator (sentence_matches s acc b).
Proof.
  induction s as [|c s IH]; intros acc b Hb; simpl.
  - destruct b.
    + destruct Hb as [c [acc' [-> Hc]]].
      exists []; split; [simpl; rewrite !app_nil_r; reflexivity|split; [constructor|]].
      constructor; [exists (rev acc'), c; split; [reflexivity|exact Hc]|constructor].
    + exists (rev acc); split; [rewrite app_nil_r; reflexivity|split; [apply Forall_rev, Hb|constructor]].
  - destruct (is_terminator c) eqn:Ec.
    + destruct (IH (c :: acc) true) as [rest [H1 [H2 H3]]]; [exists c, acc; split; [reflexivity|exact Ec]|].
      exists rest; split; [rewrite H1; simpl; rewrite <- app_assoc; reflexivity|split; assumption].
    + destruct b.
      * destruct (IH [c] false) as [rest [H1 [H2 H3]]]; [constructor; [exact Ec|constructor]|].
        exists rest; simpl; split; [rewrite <- app_assoc, H1; reflexivity|split; [exact H2|]].
        constructor; [|exact H3].
        destruct Hb as [c' [acc' [-> Hc']]]; exists (rev acc'), c'; split; [reflexivity|exact Hc'].
      * destruct (IH (c :: acc) false) as [rest [H1 [H2 H3]]]; [constructor; assumption|].
        exists rest; split; [rewrite H1; simpl; rewrite <- app_assoc; reflexivity|split; assumption].
Qed.

Lemma sentences_nonempty text : sentences text <> [].
Proof.
  unfold sentences; destruct (sentence_matches text [] false); discriminate.
Qed.

(** The loop never exits for a non-positive step. *)
Lemma sentence_loop_stuck ss n : ss <> [] -> n <= 0 ->
  forall fuel i chunks off, i <= 0 -> sentence_loop fuel ss n i chunks off = None.
Proof.
  intros Hss Hn fuel; induction fuel as [|f IH]; intros i chunks off Hi; [reflexivity|].
  simpl. replace (i <? Z.of_nat (length ss)) with true
    by (symmetry; apply Z.ltb_lt; destruct ss; [contradiction|simpl; lia]).
  apply IH; lia.
Qed.


Lemma laid_out_snoc chunks off content :
  laid_out chunks off ->
  laid_out (chunks ++ [{| Chunking.content := content; index := Z.of_nat (length chunks);
                          startOffset := off; endOffset := off + js_length content;
                          metadata := None |}])
           (off + js_length content + 1).
Proof.
  intros [Hall [H0 Hlast]].
  set (c := {| Chunking.content := content; index := Z.of_nat (length chunks);
               startOffset := off; endOffset := off + js_length content; metadata := None |}).
  split; [|split].
  - intros j d Hj.
    destruct (Nat.lt_ge_cases j (length chunks)) as [Hlt|Hge].
    + rewrite nth_error_app1 in Hj by exact Hlt.
      destruct (Hall j d Hj) as [Hi [He Hn]].
      split; [exact Hi|split; [exact He|]].
      intros c' Hc'.
      destruct (Nat.lt_ge_cases (S j) (length chunks)) as [Hlt'|Hge'].
      * rewrite nth_error_app1 in Hc' by exact Hlt'. apply Hn, Hc'.
      * assert (S j = length chunks) by lia.
        rewrite nth_error_app2 in Hc' by lia.
        replace (S j - length chunks)%nat with 0%nat in Hc' by lia.
        injection Hc' as <-; simpl.
        destruct Hlast as [[-> _]|[init [cl [Heq ->]]]]; [simpl in Hlt; lia|].
        subst chunks. rewrite length_app in *; simpl in *.
        rewrite nth_error_app2 in Hj by lia.
        replace (j - length init)%nat with 0%nat in Hj by lia.
        injection Hj as ->; reflexivity.
    + rewrite nth_error_app2 in Hj by exact Hge.
      destruct (j - length chunks)%nat as [|k] eqn:Ek; [|destruct k; discriminate].
      injection Hj as <-.
      replace j with (length chunks) by lia.
      split; [reflexivity|split; [reflexivity|]].
      intros c' Hc'; rewrite nth_error_app2 in Hc' by lia.
      replace (S (length chunks) - length chunks)%nat with 1%nat in Hc' by lia; discriminate.
  - intros d Hd.
    destruct chunks as [|c0 chunks].
    + injection Hd as <-; simpl.
      destruct Hlast as [[_ ->]|[init [cl [Heq _]]]]; [reflexivity|destruct init; discriminate].
    + injection Hd as <-; apply H0; reflexivity.
  - right; exists chunks, c; split; reflexivity.
Qed.


Lemma contents_ok_snoc ss n chunks :
  contents_ok ss n chunks ->
  forall off,
  contents_ok ss n (chunks ++ [{| Chunking.content :=
        trim (join single_space (slice ss (Z.of_nat (length chunks) * n)
                                            (Z.of_nat (length chunks) * n + n)));
      index := Z.of_nat (length chunks); startOffset := off;
      endOffset := off + js_length (trim (join single_space (slice ss (Z.of_nat (length chunks) * n)
                                            (Z.of_nat (length chunks) * n + n))));
      metadata := None |}]).
Proof.
  intros H off j c Hj.
  destruct (Nat.lt_ge_cases j (length chunks)) as [Hlt|Hge].
  - rewrite nth_error_app1 in Hj by exact Hlt. apply H, Hj.
  - rewrite nth_error_app2 in Hj by exact Hge.
    destruct (j - length chunks)%nat as [|k] eqn:Ek; [|destruct k; discriminate].
    injection Hj as <-. replace j with (length chunks) by lia. reflexivity.
Qed.

Lemma ceil_step d n : 1 <= n -> 0 < d ->
  1 + (Z.max 0 (d - n) + n - 1) / n = (d + n - 1) / n.
Proof.
  intros Hn Hd.
  destruct (Z.le_gt_cases d n) as [Hle|Hgt].
  - rewrite Z.max_l by lia. rewrite Z.div_small by lia.
    apply Z.div_unique with (r := d - 1); lia.
  - rewrite Z.max_r by lia.
    replace (d + n - 1) with ((d - n + n - 1) + 1 * n) by lia.
    rewrite Z.div_add by lia. lia.
Qed.

(** Number of iterations: [ceil ((length ss - i) / n)]. *)
Lemma sentence_loop_runs ss n : 1 <= n ->
  forall fuel chunks off, Z.max 0 (Z.of_nat (length ss) - Z.of_nat (length chunks) * n) < Z.of_nat fuel ->
  laid_out chunks off -> contents_ok ss n chunks ->
  exists out off', sentence_loop fuel ss n (Z.of_nat (length chunks) * n) chunks off = Some (chunks ++ out) /\
    Z.of_nat (length out) =
      (Z.max 0 (Z.of_nat (length ss) - Z.of_nat (length chunks) * n) + n - 1) / n /\
    laid_out (chunks ++ out) off' /\ contents_ok ss n (chunks ++ out).
Proof.
  intros Hn fuel; induction fuel as [|f IH]; intros chunks off Hf Hl Hc; [lia|].
  simpl.
  destruct (Z.of_nat (length chunks) * n <? Z.of_nat (length ss)) eqn:Elt.
  - apply Z.ltb_lt in Elt.
    set (content := trim (join single_space (slice ss (Z.of_nat (length chunks) * n)
                                               (Z.of_nat (length chunks) * n + n)))).
    set (c := {| Chunking.content := content; index := Z.of_nat (length chunks);
                 startOffset := off; endOffset := off + js_length content; metadata := None |}).
    destruct (IH (chunks ++ [c]) (off + js_length content + 1)) as [out [off' [Hrun [Hlen [Hl' Hc']]]]].
    + rewrite length_app, Nat2Z.inj_add; change (Z.of_nat (length [c])) with 1.
      rewrite Nat2Z.inj_succ in Hf. lia.
    + apply laid_out_snoc, Hl.
    + apply contents_ok_snoc, Hc.
    + exists (c :: out), off'.
      rewrite length_app, Nat2Z.inj_add in Hrun, Hlen.
      change (Z.of_nat (length [c])) with 1 in Hrun, Hlen.
      replace (Z.of_nat (length chunks) * n + n) with ((Z.of_nat (length chunks) + 1) * n) by lia.
      rewrite Hrun, <- app_assoc; split; [reflexivity|].
      rewrite <- app_assoc in Hl', Hc'; split; [|split; assumption].
      simpl length. rewrite Nat2Z.inj_succ, Hlen.
      rewrite (Z.max_r 0 (Z.of_nat (length ss) - Z.of_nat (length chunks) * n)) by lia.
      rewrite <- (ceil_step (Z.of_nat (length ss) - Z.of_nat (length chunks) * n) n) by lia.
      replace (Z.of_nat (length ss) - Z.of_nat (length chunks) * n - n)
        with (Z.of_nat (length ss) - (Z.of_nat (length chunks) + 1) * n) by lia.
      lia.
  - apply Z.ltb_ge in Elt.
    exists [], off; rewrite app_nil_r; split; [reflexivity|].
    rewrite Z.max_l by lia. rewrite Z.div_small by lia.
    split; [reflexivity|split; assumption].
Qed.

End SentenceFacts.


(** ** Facts about merging small chunks *)
Module MergeFacts.
Import Chunking.

Lemma join_cons_ne sep x l : l <> [] -> join sep (x :: l) = x ++ sep ++ join sep l.
Proof. destruct l; [contradiction|reflexivity]. Qed.

(** Joining [a ++ sep ++ b] is joining [a] and [b]. *)
Lemma join_glue sep l1 a b l2 :
  join sep (l1 ++ (a ++ sep ++ b) :: l2) = join sep (l1 ++ a :: b :: l2).
Proof.
  induction l1 as [|x l1 IH].
  - cbn [app]. destruct l2 as [|y l2]; [reflexivity|].
    rewrite (join_cons_ne sep (a ++ sep ++ b)), (join_cons_ne sep a), (join_cons_ne sep b)
      by discriminate.
    rewrite <- !app_assoc. reflexivity.
  - cbn [app]. rewrite join_cons_ne by (destruct l1; discriminate).
    rewrite (join_cons_ne sep x) by (destruct l1; discriminate).
    rewrite IH. reflexivity.
Qed.

Lemma merge_loop_join minSize rest : forall merged current,
  join (newline ++ newline) (map content (merge_loop minSize rest merged current)) =
  join (newline ++ newline) (map content merged ++ content current :: map content rest).
Proof.
  induction rest as [|chunk rest IH]; intros merged current; cbn [merge_loop].
  - rewrite map_app. reflexivity.
  - destruct (js_length (content current) <? minSize).
    + rewrite IH. cbn [with_content content map]. rewrite (app_assoc newline newline). apply join_glue.
    + rewrite IH, map_app, <- app_assoc. reflexivity.
Qed.

Lemma last_indep {A} (l : list A) (x y : A) : l <> [] -> last l x = last l y.
Proof.
  intros H; induction l as [|a l IH]; [contradiction|].
  destruct l; [reflexivity|]. apply IH; discriminate.
Qed.

Lemma last_cons_default {A} (x : A) l d : last (x :: l) d = last l x.
Proof. destruct l as [|a l]; [reflexivity|]. exact (last_indep (a :: l) d x ltac:(discriminate)). Qed.

(** The chunks [merge_loop] appends after [merged]. *)
Lemma merge_loop_tail minSize rest : forall merged current,
  exists tail, merge_loop minSize rest merged current = merged ++ tail /\
    tail <> [] /\ (length tail <= S (length rest))%nat /\
    (forall j c, nth_error tail (S j) = Some c -> index c = Z.of_nat (length merged + S j)) /\
    (forall c, nth_error tail 0 = Some c ->
       index c = (if (length tail =? 1)%nat then Z.of_nat (length merged) else index current) /\
       startOffset c = startOffset current) /\
    endOffset (last tail current) = endOffset (last rest current).
Proof.
  induction rest as [|chunk rest IH]; intros merged current; simpl.
  - exists [with_index current (Z.of_nat (length merged))].
    split; [reflexivity|split; [discriminate|split; [simpl; lia|split; [|split]]]].
    + intros j c H; destruct j; discriminate.
    + intros c H; injection H as <-; split; reflexivity.
    + reflexivity.
  - destruct (js_length (content current) <? minSize).
    + set (cur' := with_content current (content current ++ newline ++ newline ++ content chunk)
                  (endOffset chunk)).
      destruct (IH merged cur') as [tail [H1 [H2 [H3 [H4 [H5 H6]]]]]].
      exists tail; split; [exact H1|split; [exact H2|split; [lia|split; [exact H4|split]]]].
      * intros c Hc; destruct (H5 c Hc) as [Ha Hb]; split; [exact Ha|exact Hb].
      * rewrite (last_indep tail current cur' H2), H6.
        destruct rest; [reflexivity|apply f_equal, last_indep; discriminate].
    + set (cur' := with_index chunk (Z.of_nat (length (merged ++ [current])))).
      destruct (IH (merged ++ [current]) cur') as [tail [H1 [H2 [H3 [H4 [H5 H6]]]]]].
      exists (current :: tail); rewrite H1, <- app_assoc; split; [reflexivity|].
      split; [discriminate|split; [simpl; lia|split; [|split]]].
      * intros [|j] c Hc; simpl in Hc.
        -- destruct (H5 c Hc) as [Ha _]; rewrite Ha.
           destruct (length tail =? 1)%nat; unfold cur'; cbn [index with_index];
             rewrite length_app; simpl; lia.
        -- rewrite (H4 j c Hc), length_app; simpl; lia.
      * intros c Hc; injection Hc as <-.
        destruct tail; [contradiction|]; simpl; split; reflexivity.
      * rewrite last_cons_default, (last_indep tail current cur' H2), H6.
        destruct rest; [reflexivity|apply f_equal, last_indep; discriminate].
Qed.

End MergeFacts.


(** ** Facts about document ids *)
Module IndexerIdFacts.
Import IndexerIds IndexerIdSpec.


Lemma string_of_uint_no_dash d : ~ In dash (list_ascii_of_string (NilEmpty.string_of_uint d)).
Proof.
  induction d; simpl; [tauto|..];
    (intros [H|H]; [unfold dash in H; vm_compute in H; discriminate H|exact (IHd H)]).
Qed.

Lemma number_string_inj n m : number_string n = number_string m -> n = m.
Proof.
  unfold number_string; intros H.
  assert (Hs : NilEmpty.string_of_uint (N.to_uint n) = NilEmpty.string_of_uint (N.to_uint m)).
  { rewrite <- (string_of_list_ascii_of_string (NilEmpty.string_of_uint (N.to_uint n))),
            <- (string_of_list_ascii_of_string (NilEmpty.string_of_uint (N.to_uint m))), H.
    reflexivity. }
  apply DecimalN.Unsigned.to_uint_inj.
  apply (f_equal NilEmpty.uint_of_string) in Hs. rewrite !NilEmpty.usu in Hs.
  injection Hs as Hs; exact Hs.
Qed.

(** Splitting at the first separator. *)
Lemma split_at_sep (x : ascii) a1 b1 a2 b2 : ~ In x a1 -> ~ In x a2 ->
  a1 ++ x :: b1 = a2 ++ x :: b2 -> a1 = a2 /\ b1 = b2.
Proof.
  revert a2; induction a1 as [|y a1 IH]; intros [|z a2] H1 H2 H; simpl in *.
  - injection H as ->; split; reflexivity.
  - injection H as -> _; exfalso; apply H2; left; reflexivity.
  - injection H as <- _; exfalso; apply H1; left; reflexivity.
  - injection H as <- H.
    destruct (IH a2) as [-> ->]; [tauto|tauto|exact H|split; reflexivity].
Qed.

End IndexerIdFacts.


(** * Claims *)
Import VectorStore VectorStoreSpec VectorStoreFacts StoreExamples.

(** Claim C1 (code_bug evaluation): in a store with [maxDocuments = 2]
    holding ["a"] (added first) and ["b"], re-adding ["b"] deletes ["a"]
    before overwriting ["b"]: the store shrinks to one document. *)
Theorem readd_existing_id_at_capacity_evicts_other :
  match add_sequence cap2 [(1, doc_in "a" "first"); (2, doc_in "b" "second")] [] with
  | Ok m =>
      size m = 2%nat /\ get (lit "a") m <> None /\
      match add cap2 3 (doc_in "b" "second, edited") m with
      | Ok m' => size m' = 1%nat /\ get (lit "a") m' = None
      | Throw _ => False
      end
  | Throw _ => False
  end.
Proof.
  vm_compute.
  split; [reflexivity|]; split; [discriminate|]; split; reflexivity.
Qed.

(** Claim C2: with [maxDocuments = N > 0], a sequence of successful [add]
    calls with distinct ids, started on an empty store and reading a
    non-decreasing clock, leaves at most [N] documents: exactly the
    documents of the [N] most recent calls, in insertion order. *)
Theorem add_sequence_keeps_most_recent (cfg : VectorStoreConfig) (N : nat)
    (calls : list (Z * NewDocument)) :
  maxDocuments cfg = Some (Z.of_nat N) -> (0 < N)%nat ->
  Forall (fun c => Z.of_nat (length (nd_embedding (snd c))) = dimensions cfg) calls ->
  NoDup (map (fun c => nd_id (snd c)) calls) ->
  Sorted Z.le (map fst calls) ->
  exists m, add_sequence cfg calls [] = Ok m /\ (size m <= N)%nat /\
    map fst m = lastn N (map (fun c => nd_id (snd c)) calls) /\
    export m = lastn N (map (fun c => stamp (snd c) (fst c)) calls).
Proof.
  intros HN Hpos Hdim Hnd Hsort.
  exists (lastn N (map entry calls)).
  split; [|split; [|split]].
  - rewrite (add_sequence_fifo cfg N calls HN Hpos []); [reflexivity|exact Hdim|exact Hnd| | |].
    + apply Sorted_StronglySorted; [exact Z.le_trans|exact Hsort].
    + constructor.
    + split; [split; constructor|split; [simpl; lia|constructor]].
  - unfold size, lastn; rewrite length_skipn; lia.
  - rewrite lastn_map, map_map; reflexivity.
  - unfold export, values; rewrite lastn_map, map_map; reflexivity.
Qed.

Lemma add_sequence_keeps_most_recent_witness :
  exists m, add_sequence dims3 three_adds [] = Ok m /\ (size m <= 2)%nat /\
    map fst m = lastn 2 (map (fun c => nd_id (snd c)) three_adds) /\
    export m = lastn 2 (map (fun c => stamp (snd c) (fst c)) three_adds).
Proof.
  apply (add_sequence_keeps_most_recent dims3 2 three_adds).
  - reflexivity.
  - lia.
  - repeat constructor.
  - vm_compute; repeat constructor; simpl; intuition discriminate.
  - vm_compute; repeat constructor; vm_compute; discriminate.
Defined.

(** Claim C7: exporting a store and importing the array into a fresh
    store gives back the same map: same size, same document for every id. *)
Theorem export_import_roundtrip (m : store) :
  well_formed m ->
  import (export m) [] = m /\
  size (import (export m) []) = size m /\
  (forall k, get k (import (export m) []) = get k m).
Proof.
  intros [Hnd Hk].
  assert (E : import (export m) [] = m) by (apply (import_values_app m []); assumption).
  rewrite E; split; [reflexivity|split; [reflexivity|intros; reflexivity]].
Qed.

Lemma export_import_roundtrip_witness :
  import (export (map entry (firstn 2 three_adds))) [] = map entry (firstn 2 three_adds) /\
  size (import (export (map entry (firstn 2 three_adds))) []) = size (map entry (firstn 2 three_adds)) /\
  (forall k, get k (import (export (map entry (firstn 2 three_adds))) [])
             = get k (map entry (firstn 2 three_adds))).
Proof.
  apply export_import_roundtrip; split.
  - vm_compute; repeat constructor; simpl; intuition discriminate.
  - repeat constructor.
Defined.

Import Search SearchSpec SearchFacts SearchExamples.




Import Retrieval RetrievalFacts RetrievalExamples.

(** Claim C6 (counterexample): the only candidate scores [1 >= minScore],
    yet its content (8 characters) exceeds [maxContextLength = 5], so
    [buildContext] stops before it and the context is empty. *)
Lemma retrieve_counterexample :
  exists res, retrieve id_sqrt embed_one cfg1 long_doc_store (lit "q") small_context = Ok res /\
    length (documents res) = 1%nat /\
    Forall (fun r => (minScore small_context <= score r)%Q) (documents res) /\
    context res = [].
Proof.
  eexists; split; [vm_compute; reflexivity|].
  vm_compute; split; [reflexivity|split; [|reflexivity]].
  repeat constructor; discriminate.
Qed.

(** Claim C6 (amended): once the query is embedded, a retrieval in which
    every search candidate scores below [minScore] returns no documents,
    an empty context and a zero token estimate, without error; and when
    the top-ranked candidate scores at least [minScore] and its formatted
    text fits in [maxContextLength], its content occurs in the context. *)
Theorem retrieve_minScore_context (js_sqrt : Q -> Q) (embed : str -> outcome (list Q))
    (vcfg : VectorStoreConfig) (m : store) (q : str) (config : RetrievalConfig)
    (qv : list Q) :
  embed q = Ok qv ->
  (forall results,
     search js_sqrt vcfg qv (topK config) (Some (fun _ => true)) m = Ok results ->
     Forall (fun r => (score r < minScore config)%Q) results ->
     retrieve js_sqrt embed vcfg m q config =
       Ok {| query := q; documents := []; context := []; tokenEstimate := 0 |}) /\
  (forall r rest,
     search js_sqrt vcfg qv (topK config) (Some (fun _ => true)) m = Ok (r :: rest) ->
     (minScore config <= score r)%Q ->
     js_length (formatDocument r config) <= maxContextLength config ->
     exists res pre suf, retrieve js_sqrt embed vcfg m q config = Ok res /\
       context res = pre ++ content (document r) ++ suf).
Proof.
  intros Hemb; split.
  - intros results Hs Hbelow; unfold retrieve; rewrite Hemb, Hs.
    rewrite filter_all_below by exact Hbelow; reflexivity.
  - intros r rest Hs Hmin Hfit; unfold retrieve; rewrite Hemb, Hs.
    simpl List.filter. apply Qle_bool_iff in Hmin; rewrite Hmin.
    destruct (formatDocument_ends_with_content r config) as [pre Hpre].
    unfold buildContext; simpl build_parts.
    replace (maxContextLength config <? js_length (formatDocument r config)) with false
      by (symmetry; apply Z.ltb_ge; lia).
    destruct (join_cons_prefix context_separator (formatDocument r config)
                (build_parts (List.filter (fun r0 => Qle_bool (minScore config) (score r0)) rest)
                   config (js_length (formatDocument r config)))) as [suf Hsuf].
    rewrite Hsuf, Hpre.
    eexists; exists pre, suf; split; [reflexivity|]; cbn [context].
    rewrite <- app_assoc; reflexivity.
Qed.

Lemma retrieve_minScore_context_witness :
  (exists results,
     search id_sqrt cfg1 [1 # 1] (topK high_min) (Some (fun _ => true)) long_doc_store = Ok results /\
     Forall (fun r => (score r < minScore high_min)%Q) results /\
     retrieve id_sqrt embed_one cfg1 long_doc_store (lit "q") high_min =
       Ok {| query := lit "q"; documents := []; context := []; tokenEstimate := 0 |}) /\
  (exists r rest,
     search id_sqrt cfg1 [1 # 1] (topK roomy_context) (Some (fun _ => true)) long_doc_store =
       Ok (r :: rest) /\
     (minScore roomy_context <= score r)%Q /\
     js_length (formatDocument r roomy_context) <= maxContextLength roomy_context /\
     exists res pre suf,
       retrieve id_sqrt embed_one cfg1 long_doc_store (lit "q") roomy_context = Ok res /\
       context res = pre ++ content (document r) ++ suf).
Proof.
  split.
  - destruct (search id_sqrt cfg1 [1 # 1] (topK high_min) (Some (fun _ => true)) long_doc_store)
      as [rs|e] eqn:Es; [|vm_compute in Es; discriminate].
    destruct (retrieve_minScore_context id_sqrt embed_one cfg1 long_doc_store (lit "q") high_min
                [1 # 1] eq_refl) as [H _].
    assert (Hb : Forall (fun r => (score r < minScore high_min)%Q) rs)
      by (vm_compute in Es; injection Es as <-; repeat constructor).
    exists rs; split; [reflexivity|split; [exact Hb|]].
    apply (H rs Es Hb).
  - destruct (search id_sqrt cfg1 [1 # 1] (topK roomy_context) (Some (fun _ => true)) long_doc_store)
      as [[|r rest]|e] eqn:Es; try (vm_compute in Es; discriminate).
    destruct (retrieve_minScore_context id_sqrt embed_one cfg1 long_doc_store (lit "q")
                roomy_context [1 # 1] eq_refl) as [_ H].
    assert (Hr : (minScore roomy_context <= score r)%Q /\
                 js_length (formatDocument r roomy_context) <= maxContextLength roomy_context)
      by (vm_compute in Es; injection Es as <- _; split; vm_compute; discriminate).
    destruct Hr as [Hmin Hfit].
    exists r, rest; split; [reflexivity|split; [exact Hmin|split; [exact Hfit|]]].
    apply (H r rest Es Hmin Hfit).
Defined.

Import Chunking ChunkingSpec ChunkingFacts ChunkExamples.

(** Claim C3 (counterexample): [chunkText] does not check its
    configuration.  With [chunkOverlap = 10 >= maxChunkSize = 5] it returns
    a chunk for ["ab"], with [maxChunkSize = 0] it returns the empty list
    for [""], and with [chunkOverlap = maxChunkSize = 3] on ten ["a"] (no
    separator found) it reaches the hard split, whose loop never exits. *)
Lemma chunk_bad_config_counterexample :
  chunkText (lit "ab") (chunk_cfg 5 10) =
    Some [{| content := lit "ab"; index := 0; startOffset := 0; endOffset := 2;
             metadata := None |}] /\
  chunkText [] (chunk_cfg 0 0) = Some [] /\
  chunkText (rep 10 97) (chunk_cfg 3 3) = None /\
  (forall fuel, hard_split_loop (chunk_cfg 3 3) (rep 10 97) fuel 0 = None).
Proof.
  split; [vm_compute; reflexivity|]. split; [vm_compute; reflexivity|].
  split; [vm_compute; reflexivity|].
  intros fuel. apply hard_split_loop_diverges; vm_compute; [discriminate|reflexivity].
Qed.

(** Claim C3 (amended): [chunkText] performs no configuration check and
    raises no error.  A text no longer than [maxChunkSize] comes back as
    its trimmed self in one chunk (no chunk when it is blank), whatever
    [chunkOverlap] is.  When the hard split is reached with
    [maxChunkSize - chunkOverlap <= 0] on a non-empty text (here: no
    separators and a text longer than [maxChunkSize]), its loop never
    exits. *)
Theorem chunkText_no_config_check :
  (forall cfg text, js_length text <= maxChunkSize cfg ->
     chunkText text cfg =
       Some (match trim text with
             | [] => []
             | _ => [{| content := trim text; index := 0; startOffset := 0;
                        endOffset := js_length text; metadata := None |}]
             end)) /\
  (forall cfg text, separators cfg = [] -> 0 < js_length text ->
     maxChunkSize cfg < js_length text -> maxChunkSize cfg - chunkOverlap cfg <= 0 ->
     chunkText text cfg = None /\ forall fuel, hard_split_loop cfg text fuel 0 = None).
Proof.
  split.
  - intros cfg text H. apply chunkText_short, H.
  - intros cfg text Hs Hpos Hlong Hstride.
    assert (Hd : forall fuel, hard_split_loop cfg text fuel 0 = None)
      by (intros fuel; apply hard_split_loop_diverges; assumption).
    split; [|exact Hd].
    unfold chunkText. rewrite Hs. simpl.
    replace (js_length text <=? maxChunkSize cfg) with false by (symmetry; apply Z.leb_gt; exact Hlong).
    unfold hard_split. rewrite Hd. reflexivity.
Qed.

Lemma chunkText_no_config_check_witness :
  chunkText (lit "ab") (chunk_cfg 5 10) =
    Some (match trim (lit "ab") with
          | [] => []
          | _ => [{| content := trim (lit "ab"); index := 0; startOffset := 0;
                     endOffset := js_length (lit "ab"); metadata := None |}]
          end) /\
  (chunkText (rep 10 97) hard_cfg = None /\
   forall fuel, hard_split_loop hard_cfg (rep 10 97) fuel 0 = None).
Proof.
  split.
  - apply (proj1 chunkText_no_config_check). unfold js_length; simpl; lia.
  - apply (proj2 chunkText_no_config_check); [reflexivity|unfold js_length; simpl; lia..].
Defined.

(** Claim C4 (counterexample): with [maxChunkSize = 200] and
    [chunkOverlap = 50], ["A" * 200 + "\n\n" + "B" * 200] is split at the
    paragraph separator (no hard split), yet the second chunk carries the
    50-unit overlap in front of its 200 units: 250 > 200. *)
Lemma chunk_overlap_counterexample :
  valid (chunk_cfg 200 50) /\
  option_map chunk_lengths (chunkText (two_blocks 200) (chunk_cfg 200 50)) = Some [200; 250].
Proof. split; [unfold valid; simpl; lia|vm_compute; reflexivity]. Qed.

(** Claim C4 (amended): for every text and every config with
    [0 <= chunkOverlap < maxChunkSize], [chunkText] terminates and every
    chunk's content has length at most [maxChunkSize + chunkOverlap]
    (the pieces themselves, hard-split ones included, are at most
    [maxChunkSize]; the overlap prefix adds at most [chunkOverlap]); with
    [chunkOverlap = 0] every content has length at most [maxChunkSize].
    In particular ["A" * 500 + "\n\n" + "B" * 500] with [maxChunkSize = 200]
    and [chunkOverlap = 0] gives more than one chunk, each of length at
    most 200. *)
Theorem chunkText_length_bound :
  (forall cfg text, valid cfg ->
     exists cs, chunkText text cfg = Some cs /\
       Forall (fun c => js_length (content c) <= maxChunkSize cfg + chunkOverlap cfg) cs /\
       (chunkOverlap cfg = 0 -> Forall (fun c => js_length (content c) <= maxChunkSize cfg) cs)) /\
  (exists cs, chunkText (two_blocks 500) (chunk_cfg 200 0) = Some cs /\
     (1 < length cs)%nat /\ Forall (fun c => js_length (content c) <= 200) cs).
Proof.
  split.
  - intros cfg text Hv. destruct (chunkText_fits cfg text Hv) as [cs [Hc Hf]].
    exists cs. split; [exact Hc|]. split; [exact Hf|].
    intros H0. rewrite H0, Z.add_0_r in Hf. exact Hf.
  - eexists; split; [vm_compute; reflexivity|].
    split; [vm_compute; lia|]. repeat constructor; vm_compute; discriminate.
Qed.

Lemma chunkText_length_bound_witness :
  exists cs, chunkText (two_blocks 200) (chunk_cfg 200 50) = Some cs /\
    Forall (fun c => js_length (content c) <= 200 + 50) cs /\
    (50 = 0 -> Forall (fun c => js_length (content c) <= 200) cs).
Proof.
  apply (proj1 chunkText_length_bound (chunk_cfg 200 50) (two_blocks 200)).
  unfold valid; simpl; lia.
Defined.

(** Claim C8: [mergeSmallChunks] never returns more chunks than it is
    given, and returns strictly fewer when some chunk that has a successor
    is shorter than [minSize]; on contents of lengths 5, 10, 49 with
    [minSize = 30] it returns fewer than 3 chunks. *)
Theorem mergeSmallChunks_count :
  (forall chunks minSize,
     (length (mergeSmallChunks chunks minSize) <= length chunks)%nat /\
     (forall i c, (S i < length chunks)%nat -> nth_error chunks i = Some c ->
        js_length (content c) < minSize ->
        (length (mergeSmallChunks chunks minSize) < length chunks)%nat)) /\
  (length (mergeSmallChunks chunks_5_10_49 30) < 3)%nat.
Proof.
  split; [|vm_compute; lia].
  intros chunks minSize. split; [apply mergeSmallChunks_length|].
  intros i c Hi Hnth Hshort.
  apply (mergeSmallChunks_shrinks chunks minSize c).
  exists i. split; [exact Hi|]. unfold short. rewrite (nth_error_nth chunks i c Hnth). exact Hshort.
Qed.

Lemma mergeSmallChunks_count_witness :
  (length (mergeSmallChunks chunks_5_10_49 30) <= length chunks_5_10_49)%nat /\
  (forall i c, (S i < length chunks_5_10_49)%nat -> nth_error chunks_5_10_49 i = Some c ->
     js_length (content c) < 30 ->
     (length (mergeSmallChunks chunks_5_10_49 30) < length chunks_5_10_49)%nat).
Proof. apply (proj1 mergeSmallChunks_count chunks_5_10_49 30). Defined.

(** Claim C10: for every text and every config with
    [0 <= chunkOverlap < maxChunkSize], [chunkText] terminates and every
    chunk it returns has non-empty content that neither starts nor ends
    with a whitespace code unit; a whitespace-only text gives no chunk;
    a text that fits in one chunk comes back trimmed. *)
Theorem chunkText_trimmed (cfg : ChunkConfig) (text : str) :
  valid cfg ->
  exists cs, chunkText text cfg = Some cs /\
    Forall (fun c => content c <> [] /\
                     (forall a r, content c = a :: r -> is_ws a = false) /\
                     (forall init a, content c = init ++ [a] -> is_ws a = false)) cs /\
    (Forall (fun ch => is_ws ch = true) text -> cs = []) /\
    (js_length text <= maxChunkSize cfg ->
     cs = match trim text with
          | [] => []
          | _ => [{| content := trim text; index := 0; startOffset := 0;
                     endOffset := js_length text; metadata := None |}]
          end).
Proof.
  intros Hv.
  destruct (splitRecursively_fits cfg Hv (separators cfg) text) as [raws [Hs _]].
  assert (Hc : chunkText text cfg =
               Some (filter (fun c => 0 <? js_length (content c)) (build_chunks cfg None raws 0 0)))
    by (unfold chunkText; rewrite Hs; reflexivity).
  eexists; split; [exact Hc|]. split; [|split].
  - apply Forall_forall. intros c Hin. apply filter_In in Hin as [Hin Hpos].
    pose proof (build_chunks_trim cfg raws None 0 0) as Htr. rewrite Forall_forall in Htr.
    destruct (Htr c Hin) as [x Hx]. apply Z.ltb_lt in Hpos.
    split; [|split].
    + intros He. rewrite He in Hpos. discriminate.
    + intros a r Ha. rewrite Hx in Ha. exact (trim_first x a r Ha).
    + intros init a Ha. rewrite Hx in Ha. exact (trim_last x init a Ha).
  - intros Hb. apply filter_nonempty_nil, build_chunks_blank; [|discriminate].
    exact (splitRecursively_chars blank cfg _ text raws Hb Hs).
  - intros Hshort. rewrite (chunkText_short cfg text Hshort) in Hc.
    injection Hc as Hc. symmetry. exact Hc.
Qed.

Lemma chunkText_trimmed_witness :
  exists cs, chunkText (lit " hi ") (chunk_cfg 200 0) = Some cs /\
    Forall (fun c => content c <> [] /\
                     (forall a r, content c = a :: r -> is_ws a = false) /\
                     (forall init a, content c = init ++ [a] -> is_ws a = false)) cs /\
    (Forall (fun ch => is_ws ch = true) (lit " hi ") -> cs = []) /\
    (js_length (lit " hi ") <= maxChunkSize (chunk_cfg 200 0) ->
     cs = match trim (lit " hi ") with
          | [] => []
          | _ => [{| content := trim (lit " hi "); index := 0; startOffset := 0;
                     endOffset := js_length (lit " hi "); metadata := None |}]
          end).
Proof. apply chunkText_trimmed. unfold valid; simpl; lia. Defined.

Import Tokenization TokenizationFacts.

(** Claim C9 (code_bug evaluation): on a trimmed, non-empty text of at
    most ten code units whose count exceeds [maxTokens] (for instance
    ["a b c d e"], 5 tokens, with [maxTokens = 1]), [truncate] skips the
    binary search and returns [""], so [split] pushes [""] and keeps the
    same remainder: its loop never exits, whatever the fuel. *)
Theorem split_never_terminates (text : str) (maxTokens : Z) :
  trim text = text -> 0 < js_length text <= 10 -> maxTokens < count text ->
  split text maxTokens = None /\
  forall fuel parts, split_loop fuel text maxTokens parts = None.
Proof.
  intros Htrim Hl Hc.
  assert (H : forall fuel parts, split_loop fuel text maxTokens parts = None).
  { intros fuel. induction fuel as [|f IH]; intros parts; [reflexivity|].
    cbn [split_loop].
    replace (0 <? js_length text) with true by (symmetry; apply Z.ltb_lt; lia).
    replace (count text <=? maxTokens) with false by (symmetry; apply Z.leb_gt; exact Hc).
    rewrite (truncate_short_text text maxTokens Hl Hc).
    change (js_length []) with 0. rewrite slice_from_zero, Htrim. apply IH. }
  split; [apply H|exact H].
Qed.

Lemma split_never_terminates_witness :
  split (lit "a b c d e") 1 = None /\
  forall fuel parts, split_loop fuel (lit "a b c d e") 1 parts = None.
Proof.
  apply split_never_terminates; [vm_compute; reflexivity|unfold js_length; simpl; lia|vm_compute; reflexivity].
Defined.


(** * Further properties of the code *)

Module StoreOpsTheorems.
Import VectorStore VectorStoreSpec VectorStoreFacts VectorStoreOps StoreOpsFacts.

(** Extra X1: add either rejects the document with a dimensions-mismatch error
    (expected dimension, actual embedding length), or succeeds exactly when
    the embedding length equals the configured dimensions, after which
    get(doc.id) returns the document stamped with the insertion time. *)
Theorem add_get_or_throw (cfg : VectorStoreConfig) (now : Z) (doc : NewDocument) (m : store) :
  (Z.of_nat (length (nd_embedding doc)) = dimensions cfg /\
   exists m', add cfg now doc m = Ok m' /\ get (nd_id doc) m' = Some (stamp doc now))
  \/
  (Z.of_nat (length (nd_embedding doc)) <> dimensions cfg /\
   add cfg now doc m =
     Throw (DimensionsMismatch (dimensions cfg) (Z.of_nat (length (nd_embedding doc))))).
Proof.
  destruct (Z.eqb_spec (Z.of_nat (length (nd_embedding doc))) (dimensions cfg)) as [E|E].
  - left; split; [exact E|].
    unfold add; rewrite E, Z.eqb_refl; cbn [negb].
    eexists; split; [reflexivity|].
    rewrite get_map_set, str_eqb_refl; reflexivity.
  - right; split; [exact E|].
    unfold add; apply Z.eqb_neq in E; rewrite E; reflexivity.
Qed.

(** Extra X2: A successful add on a well-formed store leaves every id other
    than the added one unchanged when the store is below capacity or empty.
    At capacity, on a non-empty store, the oldest document (first by
    createdAt, insertion order breaking ties) is a stored document; it is
    deleted unless it has the added id, and every id other than these two is
    unchanged. *)
Theorem add_frame (cfg : VectorStoreConfig) (now : Z) (doc : NewDocument) (m m' : store) :
  well_formed m -> add cfg now doc m = Ok m' ->
  ((at_capacity cfg m = false \/ values m = []) ->
     forall k, k <> nd_id doc -> get k m' = get k m) /\
  (at_capacity cfg m = true -> values m <> [] ->
     exists oldest rest, sort_created (values m) = oldest :: rest /\
       get (id oldest) m = Some oldest /\
       (id oldest <> nd_id doc -> get (id oldest) m' = None) /\
       (forall k, k <> nd_id doc -> k <> id oldest -> get k m' = get k m)).
Proof.
  intros Hwf Hadd.
  destruct (add_ok cfg now doc m m' Hadd) as [m1 [-> Hm1]].
  split.
  - intros Hc k Hk; rewrite get_map_set, (str_eqb_false _ _ Hk).
    destruct Hm1 as [[_ ->] | [Hcap [oldest [rest [Hs ->]]]]]; [reflexivity|].
    destruct Hc as [Hc|Hv]; [congruence|].
    rewrite Hv in Hs; discriminate Hs.
  - intros Hcap Hne.
    destruct Hm1 as [[[Hc|Hs] ->] | [_ [oldest [rest [Hs ->]]]]]; [congruence| |].
    + exfalso; apply Hne.
      pose proof (sort_created_perm (values m)) as Hp; rewrite Hs in Hp.
      apply Permutation_nil, Permutation_sym, Hp.
    + exists oldest, rest; split; [exact Hs|split; [|split]].
      * apply get_values_wf; [exact Hwf|].
        apply (Permutation_in _ (Permutation_sym (sort_created_perm (values m)))).
        rewrite Hs; left; reflexivity.
      * intros Hk; rewrite get_map_set, (str_eqb_false _ _ Hk), get_map_delete, str_eqb_refl.
        reflexivity.
      * intros k Hk Hk'.
        rewrite get_map_set, (str_eqb_false _ _ Hk), get_map_delete, (str_eqb_false _ _ Hk').
        reflexivity.
Qed.


(** Extra X3: With a positive maxDocuments N and a store holding at most N
    documents, a successful add leaves at most N documents. *)
Theorem add_size_bound (cfg : VectorStoreConfig) (N : Z) (now : Z) (doc : NewDocument) (m m' : store) :
  well_formed m -> maxDocuments cfg = Some N -> 0 < N -> Z.of_nat (size m) <= N ->
  add cfg now doc m = Ok m' -> Z.of_nat (size m') <= N.
Proof.
  intros Hwf HN Hpos Hle Hadd.
  destruct (add_ok cfg now doc m m' Hadd) as [m1 [-> Hm1]].
  rewrite size_map_set.
  destruct Hm1 as [[Hc ->] | [Hcap [oldest [rest [Hs ->]]]]].
  - destruct (map_has (nd_id doc) m); [exact Hle|].
    destruct Hc as [Hc | Hs].
    + unfold at_capacity in Hc; rewrite HN in Hc.
      apply andb_false_iff in Hc as [Hc | Hc].
      * apply negb_false_iff, Z.eqb_eq in Hc; lia.
      * apply Z.leb_gt in Hc; lia.
    + pose proof (Permutation_length (sort_created_perm (values m))) as Hl.
      rewrite Hs in Hl; unfold values in Hl; rewrite length_map in Hl.
      unfold size; rewrite Hl; simpl; lia.
  - assert (Hin : In oldest (values m)).
    { apply (Permutation_in _ (Permutation_sym (sort_created_perm (values m)))).
      rewrite Hs; left; reflexivity. }
    assert (Hlt : (size (map_delete (id oldest) m) < size m)%nat).
    { unfold size, map_delete, values in *.
      apply in_map_iff in Hin as [[k0 v0] [Ev Hin]]; simpl in Ev; subst v0.
      apply (length_filter_lt _ _ (k0, oldest) Hin); simpl.
      destruct Hwf as [_ Hk]; rewrite Forall_forall in Hk.
      specialize (Hk _ Hin); simpl in Hk; rewrite Hk, str_eqb_refl; reflexivity. }
    destruct (map_has _ _); lia.
Qed.

(** Extra X4: When maxDocuments is unset or 0, a successful add never evicts:
    other ids keep their documents and the size grows by one exactly when the
    id was new. *)
Theorem add_no_limit (cfg : VectorStoreConfig) (now : Z) (doc : NewDocument) (m m' : store) :
  (maxDocuments cfg = None \/ maxDocuments cfg = Some 0) ->
  add cfg now doc m = Ok m' ->
  (forall k, k <> nd_id doc -> get k m' = get k m) /\
  size m' = (if map_has (nd_id doc) m then size m else S (size m)).
Proof.
  intros HN Hadd.
  assert (Hc : at_capacity cfg m = false)
    by (unfold at_capacity; destruct HN as [-> | ->]; reflexivity).
  unfold add in Hadd; rewrite Hc in Hadd.
  destruct (negb _); [discriminate|]; injection Hadd as <-.
  split.
  - intros k Hk; rewrite get_map_set, (str_eqb_false _ _ Hk); reflexivity.
  - apply size_map_set.
Qed.

(** Extra X5: delete(id) returns whether get(id) found a document; afterwards
    get(id) is undefined and every other id keeps its document. *)
Theorem delete_spec (k : str) (m : store) :
  fst (delete k m) = match get k m with Some _ => true | None => false end /\
  get k (snd (delete k m)) = None /\
  (forall k', k' <> k -> get k' (snd (delete k m)) = get k' m).
Proof.
  unfold delete; simpl; split; [apply get_some_has|split].
  - rewrite get_map_delete, str_eqb_refl; reflexivity.
  - intros k' Hk; rewrite get_map_delete, (str_eqb_false _ _ Hk); reflexivity.
Qed.

(** Extra X6: After import(docs), get(k) returns the last document of docs
    whose id is k, and the previous document for k when docs has none;
    documents are stored as given, without re-stamping. *)
Theorem import_get (docs : list VectorDocument) (m : store) (k : str) :
  get k (import docs m) =
  match find (fun d => str_eqb (id d) k) (rev docs) with
  | Some d => Some d
  | None => get k m
  end.
Proof.
  revert m; induction docs as [|d docs IH]; intros m; [reflexivity|].
  change (import (d :: docs) m) with (import docs (map_set (id d) d m)).
  rewrite IH; simpl rev; rewrite find_app; simpl find.
  destruct (find _ (rev docs)); [reflexivity|].
  rewrite get_map_set, str_eqb_sym; destruct (str_eqb (id d) k); reflexivity.
Qed.

(** Extra X7: addBatch adds the documents one by one in order; if one add
    throws, the error propagates and the documents before it stay added while
    the later ones are not added. *)
Theorem addBatch_spec (cfg : VectorStoreConfig) (calls : list (Z * NewDocument)) (m : store) :
  match addBatch cfg calls m with
  | (m', None) => add_sequence cfg calls m = Ok m'
  | (m', Some e) =>
      exists pre now d post, calls = pre ++ (now, d) :: post /\
        add_sequence cfg pre m = Ok m' /\ add cfg now d m' = Throw e /\
        add_sequence cfg calls m = Throw e
  end.
Proof.
  revert m; induction calls as [|[now d] rest IH]; intros m; simpl; [reflexivity|].
  destruct (add cfg now d m) as [m1|e] eqn:Ea.
  - specialize (IH m1). destruct (addBatch cfg rest m1) as [m' [e|]]; [|exact IH].
    destruct IH as [pre [now' [d' [post [-> [Hp [Ht Hs]]]]]]].
    exists ((now, d) :: pre), now', d', post; repeat split; [simpl; rewrite Ea; exact Hp|exact Ht|exact Hs].
  - exists [], now, d, rest; repeat split; exact Ea.
Qed.

Import StoreExamples StoreOpsExamples.

Lemma add_frame_witness :
  (at_capacity cap2 store_ab = true /\ values store_ab <> [] /\
   exists oldest rest, sort_created (values store_ab) = oldest :: rest /\
     get (id oldest) store_ab = Some oldest /\
     (id oldest <> lit "c" -> get (id oldest) store_bc = None) /\
     (forall k, k <> lit "c" -> k <> id oldest -> get k store_bc = get k store_ab)) /\
  (at_capacity nolimit store_ab = false /\
   forall k, k <> lit "c" -> get k store_abc = get k store_ab).
Proof.
  assert (Hwf : well_formed store_ab)
    by (split; [vm_compute; repeat constructor; simpl; intuition discriminate|repeat constructor]).
  split.
  - destruct (add_frame cap2 3 (doc_in "c" "third") store_ab store_bc Hwf
                ltac:(vm_compute; reflexivity)) as [_ H].
    split; [vm_compute; reflexivity|split; [vm_compute; discriminate|]].
    apply H; [vm_compute; reflexivity|vm_compute; discriminate].
  - destruct (add_frame nolimit 3 (doc_in "c" "third") store_ab store_abc Hwf
                ltac:(vm_compute; reflexivity)) as [H _].
    split; [vm_compute; reflexivity|].
    apply H; left; vm_compute; reflexivity.
Defined.

Lemma add_size_bound_witness : Z.of_nat (size store_bc) <= 2.
Proof.
  apply (add_size_bound cap2 2 3 (doc_in "c" "third") store_ab store_bc).
  - split; [vm_compute; repeat constructor; simpl; intuition discriminate|repeat constructor].
  - reflexivity.
  - lia.
  - vm_compute; discriminate.
  - vm_compute; reflexivity.
Defined.

Lemma add_no_limit_witness :
  (forall k, k <> nd_id (doc_in "c" "third") ->
     get k (store_ab ++ [entry (3, doc_in "c" "third")]) = get k store_ab) /\
  size (store_ab ++ [entry (3, doc_in "c" "third")]) =
    (if map_has (nd_id (doc_in "c" "third")) store_ab then size store_ab else S (size store_ab)).
Proof.
  apply (add_no_limit nolimit 3 (doc_in "c" "third") store_ab).
  - left; reflexivity.
  - vm_compute; reflexivity.
Defined.

End StoreOpsTheorems.


Module SearchRetrievalTheorems.
Import VectorStore Search SearchSpec SearchFacts Retrieval RetrievalSpec SearchRetrievalFacts.

(** Extra X8: A successful retrieve with topK >= 0 returns the query
    unchanged and at most topK documents, each a document of the store with
    score >= minScore; the context is built from exactly those documents, and
    tokenEstimate = ceil(context.length / 4). *)
Theorem retrieve_result (js_sqrt : Q -> Q) (embed : str -> outcome (list Q))
    (vcfg : VectorStoreConfig) (m : store) (q : str) (config : RetrievalConfig)
    (res : RetrievalResult) :
  retrieve js_sqrt embed vcfg m q config = Ok res -> 0 <= topK config ->
  query res = q /\ (length (documents res) <= Z.to_nat (topK config))%nat /\
  Forall (fun r => (minScore config <= score r)%Q /\ In (document r) (values m)) (documents res) /\
  context res = buildContext (documents res) config /\
  4 * tokenEstimate res - 3 <= js_length (context res) <= 4 * tokenEstimate res.
Proof.
  unfold retrieve; intros H Hk.
  destruct (embed q) as [qv|e]; [|discriminate].
  destruct (search js_sqrt vcfg qv (topK config) (Some (fun _ => true)) m) as [rs|e] eqn:Hs;
    [|discriminate].
  injection H as <-; cbn [query documents context tokenEstimate].
  destruct (search_ok _ _ _ _ _ _ _ Hs Hk) as [_ [Hlen _]].
  pose proof (search_docs_in _ _ _ _ _ _ _ Hs) as Hin.
  split; [reflexivity|split; [|split; [|split]]].
  - pose proof (filter_length_le (fun r => Qle_bool (minScore config) (score r)) rs); lia.
  - apply Forall_forall; intros r Hr; apply filter_In in Hr as [Hr Hmin].
    split; [apply Qle_bool_iff; exact Hmin|].
    rewrite Forall_forall in Hin; apply Hin, Hr.
  - reflexivity.
  - set (n := js_length _).
    assert (0 <= n) by (unfold n, js_length; lia).
    pose proof (Z.mod_pos_bound (n + 3) 4 ltac:(lia)).
    pose proof (Z.div_mod (n + 3) 4 ltac:(lia)).
    lia.
Qed.


(** Extra X9: buildContext joins with the 7-character separator a prefix of
    the formatted documents; the parts' summed length (separators not counted)
    stays within maxContextLength, and the first document left out would
    exceed it. *)
Theorem buildContext_budget (rs : list SearchResult) (cfg : RetrievalConfig) :
  exists n, build_parts rs cfg 0 = firstn n (map (fun r => formatDocument r cfg) rs) /\
    buildContext rs cfg = join context_separator (build_parts rs cfg 0) /\
    (build_parts rs cfg 0 <> [] ->
       total_length (build_parts rs cfg 0) <= maxContextLength cfg /\
       js_length (buildContext rs cfg) =
         total_length (build_parts rs cfg 0) + 7 * (Z.of_nat (length (build_parts rs cfg 0)) - 1)) /\
    (forall r, nth_error rs n = Some r ->
       maxContextLength cfg < total_length (build_parts rs cfg 0) + js_length (formatDocument r cfg)).
Proof.
  destruct (build_parts_prefix rs cfg 0) as [n [Hn [Hfit Hnext]]].
  exists n; split; [exact Hn|split; [reflexivity|split]].
  - intros Hne; split; [specialize (Hfit Hne); lia|].
    unfold buildContext; rewrite join_length by exact Hne; reflexivity.
  - intros r Hr; specialize (Hnext r Hr); lia.
Qed.

Import SearchExamples RetrievalExamples.

Lemma retrieve_result_witness :
  match retrieve id_sqrt embed_one cfg1 long_doc_store (lit "q") small_context with
  | Ok res =>
      query res = lit "q" /\ (length (documents res) <= Z.to_nat (topK small_context))%nat /\
      Forall (fun r => (minScore small_context <= score r)%Q /\
                       In (document r) (values long_doc_store)) (documents res) /\
      context res = buildContext (documents res) small_context /\
      4 * tokenEstimate res - 3 <= js_length (context res) <= 4 * tokenEstimate res
  | Throw _ => False
  end.
Proof.
  destruct (retrieve id_sqrt embed_one cfg1 long_doc_store (lit "q") small_context) as [res|e] eqn:E.
  - apply (retrieve_result id_sqrt embed_one cfg1 long_doc_store (lit "q") small_context res E).
    vm_compute; discriminate.
  - vm_compute in E; discriminate.
Defined.

End SearchRetrievalTheorems.


Module TokenCounterTheorems.
Import ChunkingFacts TokenCounterFacts.

(** Extra X10: For charsPerToken >= 1 and maxTokens >= 1,
    SimpleTokenCounter.split terminates and every part is at most maxTokens *
    charsPerToken characters long, so its count is at most maxTokens. *)
Theorem simple_split_bounded (charsPerToken : Z) (text : str) (maxTokens : Z) :
  1 <= charsPerToken -> 1 <= maxTokens ->
  exists parts, SimpleTokenCounter.split charsPerToken text maxTokens = Some parts /\
    Forall (fun p => js_length p <= maxTokens * charsPerToken /\
                     SimpleTokenCounter.count charsPerToken p <= maxTokens) parts.
Proof.
  intros Hc Hm; unfold SimpleTokenCounter.split.
  destruct (split_loop_bounded (maxTokens * charsPerToken) ltac:(nia) (S (S (length text))) text []
              ltac:(lia)) as [out [Ho Hout]].
  exists out; split; [exact Ho|].
  eapply Forall_impl; [|exact Hout]; intros p Hp; cbv beta in Hp; split; [exact Hp|].
  unfold SimpleTokenCounter.count.
  assert (H : js_length p + charsPerToken - 1 < charsPerToken * (maxTokens + 1)) by nia.
  pose proof (Z.div_lt_upper_bound (js_length p + charsPerToken - 1) charsPerToken (maxTokens + 1) ltac:(lia) H); lia.
Qed.

(** Extra X11: SimpleTokenCounter.split with maxTokens = 0 never leaves its
    loop on a text that is not blank after trimming. *)
Theorem simple_split_zero_diverges (charsPerToken : Z) (text : str) :
  trim text <> [] ->
  SimpleTokenCounter.split charsPerToken text 0 = None /\
  forall fuel parts, SimpleTokenCounter.split_loop fuel text 0 parts = None.
Proof.
  intros Hne; split; [|apply split_loop_zero, Hne].
  unfold SimpleTokenCounter.split; rewrite Z.mul_0_l; apply split_loop_zero, Hne.
Qed.

(** Extra X12: For a non-negative budget maxChars = maxTokens * charsPerToken,
    SimpleTokenCounter.truncate returns a text of at most maxChars characters
    unchanged; otherwise it returns a prefix of the text of at most maxChars
    characters, possibly followed by '...'. *)
Theorem simple_truncate_prefix (charsPerToken : Z) (text : str) (maxTokens : Z) :
  0 <= maxTokens * charsPerToken ->
  (js_length text <= maxTokens * charsPerToken ->
     SimpleTokenCounter.truncate charsPerToken text maxTokens = text) /\
  (maxTokens * charsPerToken < js_length text ->
     exists p rest, text = p ++ rest /\ js_length p <= maxTokens * charsPerToken /\
       (SimpleTokenCounter.truncate charsPerToken text maxTokens = p \/
        SimpleTokenCounter.truncate charsPerToken text maxTokens = p ++ lit "...")).
Proof.
  intros Hmc; unfold SimpleTokenCounter.truncate; split.
  - intros Hle; apply Z.leb_le in Hle; rewrite Hle; reflexivity.
  - intros Hlt; apply Z.leb_gt in Hlt; rewrite Hlt; cbv zeta.
    set (mc := maxTokens * charsPerToken) in *.
    destruct (slice_0_prefix text mc Hmc) as [rest [Ht Hlen]].
    set (t := slice text 0 mc) in *.
    destruct (7 * mc <? 10 * lastIndexOf t (lit ". ")) eqn:E1.
    + apply Z.ltb_lt in E1.
      destruct (slice_0_prefix t (lastIndexOf t (lit ". ") + 1) ltac:(lia)) as [rest' [Ht' Hlen']].
      exists (slice t 0 (lastIndexOf t (lit ". ") + 1)), (rest' ++ rest).
      split; [rewrite app_assoc, <- Ht'; exact Ht|split; [|left; reflexivity]].
      unfold js_length; rewrite Ht' in Hlen; rewrite length_app in Hlen; lia.
    + destruct (9 * mc <? 10 * lastIndexOf t (lit " ")) eqn:E2.
      * apply Z.ltb_lt in E2.
        destruct (slice_0_prefix t (lastIndexOf t (lit " ")) ltac:(lia)) as [rest' [Ht' Hlen']].
        exists (slice t 0 (lastIndexOf t (lit " "))), (rest' ++ rest).
        split; [rewrite app_assoc, <- Ht'; exact Ht|split; [|right; reflexivity]].
        unfold js_length; rewrite Ht' in Hlen; rewrite length_app in Hlen; lia.
      * exists t, rest; split; [exact Ht|split; [exact Hlen|right; reflexivity]].
Qed.

(** Extra X13: GPTTokenCounter.truncate always terminates, never lengthens
    the text, and returns the text unchanged when its count is within
    maxTokens. *)
Theorem gpt_truncate_total (text : str) (maxTokens : Z) :
  exists t, Tokenization.truncate text maxTokens = Some t /\ (length t <= length text)%nat /\
    (Tokenization.count text <= maxTokens -> t = text).
Proof.
  unfold Tokenization.truncate.
  destruct (Tokenization.count text <=? maxTokens) eqn:Ec.
  - exists text; split; [reflexivity|split; [lia|reflexivity]].
  - apply Z.leb_gt in Ec.
    destruct (search_loop_exits text maxTokens (S (length text)) 0 (js_length text)) as [low [Hl Hb]].
    + unfold js_length; lia.
    + unfold js_length; lia.
    + lia.
    + rewrite Hl; cbv zeta.
      eexists; split; [reflexivity|split; [|intros H; lia]].
      eapply Nat.le_trans; [apply trim_length|].
      pose proof (slice_length_all text 0 low).
      destruct (7 * low <? _); [|exact H].
      eapply Nat.le_trans; [apply slice_length_all|exact H].
Qed.

Import TokenExamples.

Lemma simple_split_bounded_witness :
  exists parts, SimpleTokenCounter.split 4 sample 3 = Some parts /\
    Forall (fun p => js_length p <= 3 * 4 /\ SimpleTokenCounter.count 4 p <= 3) parts.
Proof. apply (simple_split_bounded 4 sample 3); lia. Defined.

Lemma simple_split_zero_diverges_witness :
  SimpleTokenCounter.split 4 sample 0 = None /\
  forall fuel parts, SimpleTokenCounter.split_loop fuel sample 0 parts = None.
Proof. apply (simple_split_zero_diverges 4 sample); vm_compute; discriminate. Defined.

Lemma simple_truncate_prefix_witness :
  (js_length sample <= 3 * 4 -> SimpleTokenCounter.truncate 4 sample 3 = sample) /\
  (3 * 4 < js_length sample ->
     exists p rest, sample = p ++ rest /\ js_length p <= 3 * 4 /\
       (SimpleTokenCounter.truncate 4 sample 3 = p \/
        SimpleTokenCounter.truncate 4 sample 3 = p ++ lit "...")).
Proof. apply (simple_truncate_prefix 4 sample 3); lia. Defined.

End TokenCounterTheorems.


Module EmbeddingTheorems.
Import Tokenization LocalEmbeddings EmbeddingSpec EmbeddingFacts.

(** Extra X14: hashString is the 32-bit wrap-around of the polynomial hash sum
    of c_i * 31^(n-1-i) over the character codes, lies in [-2^31, 2^31), and
    gives a bucket Math.abs(hash) % dims in [0, dims) for dims > 0. *)
Theorem hashString_int32 (s : str) :
  hashString s = to_int32 (poly_hash s) /\ - 2 ^ 31 <= hashString s < 2 ^ 31 /\
  (forall dims, 0 < dims -> 0 <= bucket dims s < dims).
Proof.
  split; [apply hashString_poly|split; [rewrite hashString_poly; apply to_int32_range|]].
  intros dims Hd; apply bucket_range, Hd.
Qed.

(** Extra X15: Every token of the local provider's tokenize is at least 3
    characters long and consists only of digits, lower-case letters a-z and
    underscores. *)
Theorem tokenize_tokens (text : str) :
  Forall (fun t => 3 <= js_length t /\ Forall (fun c => token_char c = true) t) (tokenize text).
Proof.
  unfold tokenize.
  apply Forall_forall; intros t Ht; apply filter_In in Ht as [Ht Hl].
  apply Z.ltb_lt in Hl; split; [lia|].
  pose proof (tokenize_chars text) as H; rewrite Forall_forall in H; apply H, Ht.
Qed.

(** Extra X16: For dims > 0, computeTFIDF returns dims entries; before
    normalisation they are non-negative integer counts summing to the
    number of tokens, and with no tokens the result is the zero vector. *)
Theorem computeTFIDF_counts (js_sqrt : Q -> Q) (dims : Z) (tokens : list str) :
  0 < dims ->
  length (computeTFIDF js_sqrt dims tokens) = Z.to_nat dims /\
  Forall is_count (term_counts dims tokens) /\
  (Qsum (term_counts dims tokens) == inject_Z (Z.of_nat (length tokens)))%Q /\
  (tokens = [] -> Forall (fun v => v == 0)%Q (computeTFIDF js_sqrt dims tokens)).
Proof.
  intros Hd.
  destruct (term_counts_props dims tokens Hd) as [Hlen [Hsum Hcnt]].
  unfold computeTFIDF; cbv zeta.
  set (e := term_counts dims tokens) in *.
  set (mag := js_sqrt (sum_squares e)).
  split; [destruct (Qle_bool mag 0); [exact Hlen|rewrite length_map; exact Hlen]|].
  split; [exact Hcnt|split; [exact Hsum|]].
  intros ->.
  assert (Hz : Forall (fun v => v == 0)%Q e) by (apply Qsum_zero; [exact Hcnt|exact Hsum]).
  destruct (Qle_bool mag 0); [exact Hz|].
  apply Forall_map; eapply Forall_impl; [|exact Hz]; intros v Hv; simpl in Hv |- *.
  rewrite Hv; unfold Qdiv; ring.
Qed.

Lemma computeTFIDF_counts_witness :
  (0 < 4 /\
   length (computeTFIDF SearchExamples.id_sqrt 4 [lit "hello"]) = Z.to_nat 4 /\
   Forall is_count (term_counts 4 [lit "hello"]) /\
   (Qsum (term_counts 4 [lit "hello"]) == inject_Z (Z.of_nat (length [lit "hello"])))%Q /\
   ([lit "hello"] = [] ->
      Forall (fun v => v == 0)%Q (computeTFIDF SearchExamples.id_sqrt 4 [lit "hello"]))) /\
  (Forall (fun v => v == 0)%Q (computeTFIDF SearchExamples.id_sqrt 4 [])).
Proof.
  split.
  - split; [lia|apply (computeTFIDF_counts SearchExamples.id_sqrt 4 [lit "hello"]); lia].
  - destruct (computeTFIDF_counts SearchExamples.id_sqrt 4 [] ltac:(lia)) as [_ [_ [_ H]]].
    apply H; reflexivity.
Defined.

Lemma computeTFIDF_length (js_sqrt : Q -> Q) (dims : Z) (tokens : list str) :
  0 < dims -> length (computeTFIDF js_sqrt dims tokens) = Z.to_nat dims.
Proof.
  intros Hd; destruct (term_counts_props dims tokens Hd) as [Hlen _].
  unfold computeTFIDF; cbv zeta.
  destruct (Qle_bool _ 0); [exact Hlen|rewrite length_map; exact Hlen].
Qed.

(** Extra X17: For a configured dimension >= 0 (0 meaning the default 512),
    embed returns the text, the model 'local-tfidf', and an embedding whose
    length equals the reported dimensions, namely the provider's dimension. *)
Theorem embed_dimensions (js_sqrt : Q -> Q) (configured : Z) (text : str) :
  0 <= configured ->
  let r := embed js_sqrt (provider_dimensions configured) text in
  er_dimensions r = (if configured =? 0 then 512 else configured) /\
  length (er_embedding r) = Z.to_nat (er_dimensions r) /\
  er_text r = text /\ er_model r = lit "local-tfidf".
Proof.
  intros Hc r; subst r; unfold embed, provider_dimensions; cbn [er_dimensions er_embedding er_text er_model].
  assert (Hp : 0 < (if configured =? 0 then 512 else configured))
    by (destruct (Z.eqb_spec configured 0); lia).
  rewrite (computeTFIDF_length js_sqrt _ _ Hp), Z2Nat.id by lia.
  split; [reflexivity|split; [reflexivity|split; reflexivity]].
Qed.

Lemma embed_dimensions_witness :
  0 <= 0 /\
  er_dimensions (embed SearchExamples.id_sqrt (provider_dimensions 0) (lit "hello world")) = 512 /\
  length (er_embedding (embed SearchExamples.id_sqrt (provider_dimensions 0) (lit "hello world"))) =
    Z.to_nat (er_dimensions (embed SearchExamples.id_sqrt (provider_dimensions 0) (lit "hello world"))) /\
  er_text (embed SearchExamples.id_sqrt (provider_dimensions 0) (lit "hello world")) = lit "hello world" /\
  er_model (embed SearchExamples.id_sqrt (provider_dimensions 0) (lit "hello world")) = lit "local-tfidf".
Proof.
  split; [lia|apply (embed_dimensions SearchExamples.id_sqrt 0 (lit "hello world")); lia].
Defined.

End EmbeddingTheorems.


Module SentenceTheorems.
Import Chunking Sentences SentenceSpec SentenceFacts SentenceExamples.

(** Extra X18: The sentences of chunkBySentences either are the whole text
    (when it contains none of . ! ?), or each end with one of . ! ? and,
    concatenated, give the text minus a trailing part without terminators,
    which is dropped. *)
Theorem sentences_cover (text : str) :
  (no_terminator text /\ sentences text = [text]) \/
  (exists rest, concat (sentences text) ++ rest = text /\ no_terminator rest /\
     Forall ends_with_terminator (sentences text)).
Proof.
  destruct (sentence_matches_decomp text [] false (Forall_nil _)) as [rest [H1 [H2 H3]]].
  unfold sentences. destruct (sentence_matches text [] false) as [|m ms] eqn:E.
  - left; simpl in H1; subst rest; split; [exact H2|reflexivity].
  - right; exists rest; split; [exact H1|split; assumption].
Qed.

(** Extra X19: For sentencesPerChunk = n >= 1, chunkBySentences returns
    ceil(L/n) chunks for L sentences; chunk j has index j, content the trimmed
    space-joined sentences jn..jn+n-1, endOffset = startOffset + content
    length, the first starts at 0 and each next one starts one after the
    previous end. *)
Theorem chunkBySentences_layout (text : str) (n : Z) (Hn : 1 <= n) :
  exists cs, chunkBySentences text n = Some cs /\
    Z.of_nat (length cs) = (Z.of_nat (length (sentences text)) + n - 1) / n /\
    (forall c, nth_error cs 0 = Some c -> startOffset c = 0) /\
    (forall j c, nth_error cs j = Some c ->
       index c = Z.of_nat j /\
       content c = trim (join single_space
                      (slice (sentences text) (Z.of_nat j * n) (Z.of_nat j * n + n))) /\
       endOffset c = startOffset c + js_length (content c) /\
       (forall c', nth_error cs (S j) = Some c' -> startOffset c' = endOffset c + 1)).
Proof.
  destruct (sentence_loop_runs (sentences text) n Hn (S (length (sentences text))) [] 0)
    as [out [off' [Hrun [Hlen [[Hall [H0 _]] Hc]]]]].
  - simpl. lia.
  - split; [intros [|j] c H; discriminate|split; [intros c H; discriminate|left; split; reflexivity]].
  - intros [|j] c H; discriminate.
  - simpl in *. exists out; split; [exact Hrun|split].
    + rewrite Hlen. rewrite Z.max_r by lia. f_equal. lia.
    + split; [exact H0|].
      intros j c Hj; destruct (Hall j c Hj) as [Hi [He Hn']].
      split; [exact Hi|split; [apply Hc, Hj|split; assumption]].
Qed.

(** Extra X20: chunkBySentences with sentencesPerChunk <= 0 never leaves its
    loop, for every text. *)
Theorem chunkBySentences_nonpositive_diverges (text : str) (n : Z) (Hn : n <= 0) :
  chunkBySentences text n = None /\
  forall fuel, sentence_loop fuel (sentences text) n 0 [] 0 = None.
Proof.
  assert (H : forall fuel, sentence_loop fuel (sentences text) n 0 [] 0 = None)
    by (intros fuel; apply sentence_loop_stuck; [apply sentences_nonempty|exact Hn|lia]).
  split; [apply H|exact H].
Qed.


Lemma chunkBySentences_layout_witness :
  1 <= 2 /\
  exists cs, chunkBySentences three_sentences 2 = Some cs /\
    Z.of_nat (length cs) = (Z.of_nat (length (sentences three_sentences)) + 2 - 1) / 2 /\
    (forall c, nth_error cs 0 = Some c -> startOffset c = 0) /\
    (forall j c, nth_error cs j = Some c ->
       index c = Z.of_nat j /\
       content c = trim (join single_space
                      (slice (sentences three_sentences) (Z.of_nat j * 2) (Z.of_nat j * 2 + 2))) /\
       endOffset c = startOffset c + js_length (content c) /\
       (forall c', nth_error cs (S j) = Some c' -> startOffset c' = endOffset c + 1)).
Proof.
  split; [lia|apply (chunkBySentences_layout three_sentences 2); lia].
Defined.

Lemma chunkBySentences_nonpositive_diverges_witness :
  0 <= 0 /\
  chunkBySentences three_sentences 0 = None /\
  forall fuel, sentence_loop fuel (sentences three_sentences) 0 0 [] 0 = None.
Proof.
  split; [lia|apply (chunkBySentences_nonpositive_diverges three_sentences 0); lia].
Defined.

End SentenceTheorems.


Module MergeIdTheorems.
Import Chunking IndexerIds MergeFacts IndexerIdSpec IndexerIdFacts.

(** Extra X21: mergeSmallChunks loses and adds no text: joining the output
    contents with blank lines gives the same string as joining the input
    contents with blank lines. *)
Theorem mergeSmallChunks_join (chunks : list TextChunk) (minSize : Z) :
  join (newline ++ newline) (map content (mergeSmallChunks chunks minSize)) =
  join (newline ++ newline) (map content chunks).
Proof.
  destruct chunks as [|first rest]; [reflexivity|].
  simpl. rewrite merge_loop_join. reflexivity.
Qed.

(** Extra X22: mergeSmallChunks returns no more chunks than it gets and at
    least one for a non-empty input; output chunk j >= 1 has index j, the
    first output starts where the first input starts and keeps its index
    unless it is the only output (index 0), and the last output ends where the
    last input ends. *)
Theorem mergeSmallChunks_shape (chunks : list TextChunk) (minSize : Z) :
  (length (mergeSmallChunks chunks minSize) <= length chunks)%nat /\ (chunks <> [] -> (mergeSmallChunks chunks minSize) <> []) /\
  (forall j c, nth_error (mergeSmallChunks chunks minSize) (S j) = Some c -> index c = Z.of_nat (S j)) /\
  (forall first rest c, chunks = first :: rest -> nth_error (mergeSmallChunks chunks minSize) 0 = Some c ->
     index c = (if (length (mergeSmallChunks chunks minSize) =? 1)%nat then 0 else index first) /\
     startOffset c = startOffset first) /\
  (forall first rest, chunks = first :: rest ->
     endOffset (last (mergeSmallChunks chunks minSize) first) = endOffset (last chunks first)).
Proof.
  destruct chunks as [|first rest].
  - simpl; split; [lia|split; [intros H; contradiction|split; [intros [|j] c H; discriminate|split]]].
    + intros f r c H; discriminate.
    + intros f r H; discriminate.
  - simpl mergeSmallChunks.
    destruct (merge_loop_tail minSize rest [] first) as [tail [H1 [H2 [H3 [H4 [H5 H6]]]]]].
    simpl in H1; rewrite H1.
    split; [simpl; lia|split; [intros _; exact H2|split; [exact H4|split]]].
    + intros f r c E Hc; injection E as <- <-. exact (H5 c Hc).
    + intros f r E; injection E as <- <-.
      rewrite last_cons_default. exact H6.
Qed.

(** Extra X23: The indexer's ids doc-${Date.now()}-${idCounter} are injective:
    two ids are equal only when both the timestamps and the counters are
    equal. *)
Theorem make_id_injective (now1 counter1 now2 counter2 : N) :
  make_id now1 counter1 = make_id now2 counter2 -> now1 = now2 /\ counter1 = counter2.
Proof.
  unfold make_id; intros H; simpl in H.
  injection H as H.
  destruct (split_at_sep dash (number_string now1) (number_string counter1)
              (number_string now2) (number_string counter2)) as [Ha Hb];
    [apply string_of_uint_no_dash|apply string_of_uint_no_dash|exact H|].
  split; apply number_string_inj; assumption.
Qed.

Lemma make_id_injective_witness :
  make_id 1700000000000 7 = make_id 1700000000000 7 /\
  (1700000000000 = 1700000000000 /\ 7 = 7)%N.
Proof.
  split; [reflexivity|apply make_id_injective; reflexivity].
Defined.

End MergeIdTheorems.
